(** * Pledge and payment hooks: query keys, fetchers and cache invalidation

    A shallow embedding of the data-synchronisation hook module
    (the module that exports [pledgeKeys], [paymentKeys], [usePledgesQuery],
    [useCreatePledgeMutation], [useCreatePaymentMutation] and
    [useCreatePledgeAndPayMutation]) together with a model of the query
    cache those hooks drive.

    Conventions.
    - A JavaScript object is an association list in insertion order.
    - A JavaScript number is an integer [Z]; fractional values, NaN and
      exponent notation are outside the model.
    - The hook module imports its cache ([useQuery], [useMutation],
      [useQueryClient]) from a package whose code is not part of the sources;
      every definition that stands for that package is marked
      "Modelled from the spec". *)

From Stdlib Require Import ZArith List String Ascii Bool Lia.
From Stdlib Require Import DecimalString.
From Stdlib Require Import Permutation.
Import ListNotations.

Open Scope string_scope.
Open Scope Z_scope.

(* ===================================================================== *)
(** ** JavaScript values *)
(* ===================================================================== *)

(** Primitive values: what the fields of the parameter bags and of the
    mutation inputs hold. *)
Inductive Prim : Type :=
| PUndefined
| PNull
| PBool (b : bool)
| PNum (n : Z)
| PStr (s : string).

(** In-memory values, as produced by [response.json()]. *)
#[warnings="-register-all"]
Inductive Value : Type :=
| VPrim (p : Prim)
| VArr (items : list Value)
| VObj (fields : list (string * Value)).

(** An object is the list of its own enumerable properties, oldest first. *)
Definition Obj (A : Type) : Type := list (string * A).

Definition Prim_eq_dec (a b : Prim) : {a = b} + {a <> b}.
Proof.
  decide equality;
    [apply Bool.bool_dec | apply Z.eq_dec | apply string_dec].
Defined.

Definition Prim_eqb (a b : Prim) : bool :=
  if Prim_eq_dec a b then true else false.

Section Objects.
Context {A : Type}.

(** [o[k]] for a key that may be absent: the first binding, if any. *)
Fixpoint lookup (k : string) (o : Obj A) : option A :=
  match o with
  | [] => None
  | (k', v) :: rest => if String.eqb k k' then Some v else lookup k rest
  end.

Definition keys (o : Obj A) : list string := map fst o.

(** [{ ...o, k: v }] : an existing property keeps its position and takes
    the new value, a new property goes last. *)
Fixpoint assign (k : string) (v : A) (o : Obj A) : Obj A :=
  match o with
  | [] => [(k, v)]
  | (k', v') :: rest =>
      if String.eqb k k' then (k', v) :: rest else (k', v') :: assign k v rest
  end.

(** [const { k, ...rest } = o] : the rest object. *)
Definition omit (k : string) (o : Obj A) : Obj A :=
  filter (fun kv => negb (String.eqb k (fst kv))) o.
End Objects.

(** Property read on an object of primitives: an absent property reads as
    [undefined]. *)
Definition get (k : string) (o : Obj Prim) : Prim :=
  match lookup k o with
  | Some v => v
  | None => PUndefined
  end.

(** Decimal rendering of an integer, [Number.prototype.toString]. *)
Definition Z_toString (n : Z) : string :=
  NilZero.string_of_int (Z.to_int n).

(** [value.toString()] on a primitive that has the method; [undefined] and
    [null] have none, the callers test for them first. *)
Definition Prim_toString (v : Prim) : string :=
  match v with
  | PUndefined => "undefined"
  | PNull => "null"
  | PBool true => "true"
  | PBool false => "false"
  | PNum n => Z_toString n
  | PStr s => s
  end.

(** JavaScript truthiness, as tested by [if (x)] and [x || y]. *)
Definition truthy (v : Prim) : bool :=
  match v with
  | PUndefined | PNull => false
  | PBool b => b
  | PNum n => negb (n =? 0)
  | PStr s => negb (String.eqb s "")
  end.

(* ===================================================================== *)
(** ** Query keys *)
(* ===================================================================== *)

(** A key is an array of values: string tags, ids and parameter bags.  The
    builders are typed ([id: number], [params: PledgeQueryParams]); at run
    time they store the value they are given, which is what is modelled. *)
Inductive KeyPart : Type :=
| KPrim (v : Prim)
| KObj (o : Obj Prim).

Definition Key : Type := list KeyPart.

Definition tag (s : string) : KeyPart := KPrim (PStr s).

Definition PledgeQueryParams : Type := Obj Prim.

(** [pledgeKeys] and [paymentKeys], lines 188-203 of the hook module. *)
Module pledgeKeys.
Definition all : Key := [tag "pledges"].
Definition lists : Key := (all ++ [tag "list"])%list.
Definition details : Key := (all ++ [tag "detail"])%list.
Definition detail (id : Prim) : Key := (details ++ [KPrim id])%list.
Definition list (params : PledgeQueryParams) : Key :=
  (lists ++ [KObj params])%list.
End pledgeKeys.

Module paymentKeys.
Definition all : Key := [tag "payments"].
Definition lists : Key := (all ++ [tag "list"])%list.
Definition byPledge (pledgeId : Prim) : Key :=
  (lists ++ [tag "pledge"; KPrim pledgeId])%list.
Definition byContact (contactId : Prim) : Key :=
  (lists ++ [tag "contact"; KPrim contactId])%list.
End paymentKeys.

(** Modelled from the spec: the identity of keys in the cache, which lives in
    the imported cache package.  "Two keys are equal iff family and every
    parameter match by value": parameter bags are compared field by field,
    whatever the order in which the fields were inserted. *)
Definition bag_eqb (p q : Obj Prim) : bool :=
  forallb (fun k => Prim_eqb (get k p) (get k q)) (keys p ++ keys q)%list.

Definition KeyPart_eqb (x y : KeyPart) : bool :=
  match x, y with
  | KPrim v, KPrim w => Prim_eqb v w
  | KObj p, KObj q => bag_eqb p q
  | _, _ => false
  end.

Fixpoint Key_eqb (a b : Key) : bool :=
  match a, b with
  | [], [] => true
  | x :: a', y :: b' => KeyPart_eqb x y && Key_eqb a' b'
  | _, _ => false
  end.

(** Modelled from the spec: [isPrefixOf a b], "true iff [b]'s
    family/parameter bag extends [a]'s".  Tags and ids must agree position
    by position; a parameter bag of [b] extends the one of [a] when it gives
    every field of [a] the same value. *)
Definition bag_extends (p q : Obj Prim) : bool :=
  forallb (fun k => Prim_eqb (get k p) (get k q)) (keys p).

Definition KeyPart_matches (x y : KeyPart) : bool :=
  match x, y with
  | KPrim v, KPrim w => Prim_eqb v w
  | KObj p, KObj q => bag_extends p q
  | _, _ => false
  end.

Fixpoint isPrefixOf (a b : Key) : bool :=
  match a, b with
  | [], _ => true
  | _ :: _, [] => false
  | x :: a', y :: b' => KeyPart_matches x y && isPrefixOf a' b'
  end.

(** Two bags are equal by value when every field reads the same. *)
Definition bag_eqv (p q : Obj Prim) : Prop :=
  forall k, get k p = get k q.

(** Structural prefix on keys, as on any list. *)
Definition key_prefix (a b : Key) : Prop := exists rest, b = (a ++ rest)%list.

(* ===================================================================== *)
(** ** Promises, the network and the console *)
(* ===================================================================== *)

Record Error : Type := { name : string; message : string }.

Definition newError (msg : string) : Error :=
  {| name := "Error"; message := msg |}.

(** How a promise settles. *)
Inductive Outcome (A : Type) : Type :=
| Resolved (a : A)
| Rejected (e : Error).
Arguments Resolved {A} a.
Arguments Rejected {A} e.

Record Request : Type := {
  url : string;
  method : string;
  headers : list (string * string);
  body : option (Obj Prim)
}.

(** An HTTP response; [json] is [None] when the body is not valid JSON, in
    which case [response.json()] rejects. *)
Record Response : Type := {
  ok : bool;
  statusText : string;
  json : option Value
}.

(** The transport is out of scope: the world supplies the replies, one per
    call of [fetch], in the order of the calls ([replies]); a reply is a
    response or a network failure.  [sent] and [console] record what the
    module did, oldest first. *)
Record Net : Type := {
  sent : list Request;
  replies : list (Outcome Response);
  console : list (string * Error)
}.

(** Asynchronous functions: a computation over the network state that
    resolves or rejects. *)
Definition Async (A : Type) : Type := Net -> Outcome A * Net.

Definition ret {A} (a : A) : Async A := fun n => (Resolved a, n).

Definition throw {A} (e : Error) : Async A := fun n => (Rejected e, n).

Definition bind {A B} (m : Async A) (k : A -> Async B) : Async B :=
  fun n =>
    match m n with
    | (Resolved a, n') => k a n'
    | (Rejected e, n') => (Rejected e, n')
    end.

Notation "x <- m ;; k" := (bind m (fun x => k))
  (at level 61, m at next level, right associativity).

Definition networkFailure : Error :=
  {| name := "TypeError"; message := "Failed to fetch" |}.

(** [await fetch(...)]: the request goes out, the next reply comes back. *)
Definition fetch (req : Request) : Async Response :=
  fun n =>
    match replies n with
    | reply :: rest =>
        (reply,
         {| sent := (sent n ++ [req])%list; replies := rest; console := console n |})
    | [] =>
        (Rejected networkFailure,
         {| sent := (sent n ++ [req])%list; replies := []; console := console n |})
    end.

(** [await response.json()]. *)
Definition response_json (response : Response) : Async Value :=
  match json response with
  | Some v => ret v
  | None =>
      throw {| name := "SyntaxError"; message := "Unexpected token in JSON" |}
  end.

(** [console.error(label, error)]. *)
Definition console_error (label : string) (e : Error) : Net -> Net :=
  fun n =>
    {| sent := sent n; replies := replies n;
       console := (console n ++ [(label, e)])%list |}.

(** [JSON.stringify] of an object of primitives: properties whose value is
    [undefined] are left out of the document. *)
Definition JSON_stringify (data : Obj Prim) : Obj Prim :=
  filter (fun kv => match snd kv with PUndefined => false | _ => true end) data.

(** [v.error] on a parsed JSON value: a property read throws on [null], and
    reads [undefined] where the property is absent. *)
Definition member (k : string) (v : Value) : Async Value :=
  match v with
  | VPrim PNull | VPrim PUndefined =>
      throw {| name := "TypeError";
               message := "Cannot read properties of null" |}
  | VObj fields =>
      match lookup k fields with
      | Some x => ret x
      | None => ret (VPrim PUndefined)
      end
  | _ => ret (VPrim PUndefined)
  end.

Definition Value_truthy (v : Value) : bool :=
  match v with
  | VPrim p => truthy p
  | _ => true
  end.

(** String conversion of the argument of [new Error(...)]. *)
Fixpoint Value_toString (v : Value) : string :=
  match v with
  | VPrim p => Prim_toString p
  | VObj _ => "[object Object]"
  | VArr items =>
      String.concat ","
        (map (fun x =>
                match x with
                | VPrim PNull | VPrim PUndefined => ""
                | _ => Value_toString x
                end) items)
  end.

(* ===================================================================== *)
(** ** API functions *)
(* ===================================================================== *)

Definition CreatePaymentData : Type := Obj Prim.
Definition CreatePledgeData : Type := Obj Prim.
Definition CreatePledgeAndPayData : Type := Obj Prim.

Definition jsonHeaders : list (string * string) :=
  [("Content-Type", "application/json")].

(** [createPayment], lines 125-144: the request it hands to [fetch], and
    the function. *)
Definition createPayment_request (data : CreatePaymentData) : Request :=
  {| url := "/api/payments"; method := "POST"; headers := jsonHeaders;
     body := Some (JSON_stringify data) |}.

Definition createPayment (data : CreatePaymentData) : Async Value :=
  response <- fetch (createPayment_request data) ;;
  if negb (ok response) then
    errorData <- response_json response ;;
    error <- member "error" errorData ;;
    throw (newError
             (if Value_truthy error then Value_toString error
              else "Failed to create payment: " ++ statusText response))
  else response_json response.

(** [fetchPledges], lines 146-164.  First the test of its loop and the
    entries the loop appends to the [URLSearchParams]. *)
Definition isPresent (value : Prim) : bool :=
  negb (Prim_eqb value PUndefined) &&
  negb (Prim_eqb value PNull) &&
  negb (Prim_eqb value (PStr "")).

Fixpoint fetchPledges_searchParams (entries : Obj Prim)
  : list (string * string) :=
  match entries with
  | [] => []
  | (key, value) :: rest =>
      if isPresent value
      then (key, Prim_toString value) :: fetchPledges_searchParams rest
      else fetchPledges_searchParams rest
  end.

Section Fetchers.
(** The percent-encoding of [URLSearchParams.prototype.toString] belongs
    to the platform; it is a parameter here. *)
Variable encode : string -> string.

Definition URLSearchParams_toString (l : list (string * string)) : string :=
  String.concat "&" (map (fun kv => encode (fst kv) ++ "=" ++ encode (snd kv)) l).

Definition fetchPledges_url (params : PledgeQueryParams) : string :=
  "/api/pledges?" ++ URLSearchParams_toString (fetchPledges_searchParams params).

Definition fetchPledges_request (params : PledgeQueryParams) : Request :=
  {| url := fetchPledges_url params; method := "GET"; headers := [];
     body := None |}.

Definition fetchPledges (params : PledgeQueryParams) : Async Value :=
  response <- fetch (fetchPledges_request params) ;;
  if negb (ok response) then
    throw (newError ("Failed to fetch pledges: " ++ statusText response))
  else response_json response.
End Fetchers.

(** [createPledge], lines 166-185: the request it hands to [fetch], and the
    function. *)
Definition createPledge_request (data : CreatePledgeData) : Request :=
  {| url := "/api/pledges"; method := "POST"; headers := jsonHeaders;
     body := Some (JSON_stringify data) |}.

Definition createPledge (data : CreatePledgeData) : Async Value :=
  response <- fetch (createPledge_request data) ;;
  if negb (ok response) then
    errorData <- response_json response ;;
    error <- member "error" errorData ;;
    throw (newError
             (if Value_truthy error then Value_toString error
              else "Failed to create pledge: " ++ statusText response))
  else response_json response.

(* ===================================================================== *)
(** ** The query cache *)
(* ===================================================================== *)

(** Modelled from the spec: the Cache Store, the Fetch Coordinator, the
    subscriber counts and the Invalidation Engine, whose code is in the
    imported cache package and not in the sources.  Garbage collection of
    unused entries is left out: no entry is ever removed here. *)
Inductive Status : Type := StPending | StSuccess | StError.

Definition Caller : Type := nat.

(** The argument of [useQuery]. *)
Record UseQueryOptions : Type := {
  queryKey : Key;
  queryFn : Async Value;
  staleTime : Z;
  gcTime : Z
}.

(** Modelled from the spec: a Cache Entry.  [promise] is the in-flight
    fetch, with the outcome it will settle to; [attached] are the callers
    waiting on it. *)
Record Entry : Type := {
  options : UseQueryOptions;
  status : Status;
  data : option Value;
  error : option Error;
  fetchedAt : Z;
  staleAt : Z;
  subscriberCount : nat;
  promise : option (Outcome Value);
  attached : list Caller
}.

Definition key (e : Entry) : Key := queryKey (options e).

(** Modelled from the spec: the process-local cache.  [delivered],
    [fetchLog], [settleLog] and [invalidations] only record what happened:
    which caller was handed which outcome, for which keys a fetcher was
    invoked and a completion applied, and which prefixes were invalidated. *)
Record Client : Type := {
  net : Net;
  now : Z;
  queries : list Entry;
  delivered : list (Caller * Key * Outcome Value);
  fetchLog : list Key;
  settleLog : list Key;
  invalidations : list Key
}.

Definition withNet (n : Net) (c : Client) : Client :=
  {| net := n; now := now c; queries := queries c; delivered := delivered c;
     fetchLog := fetchLog c; settleLog := settleLog c;
     invalidations := invalidations c |}.

Definition withQueries (qs : list Entry) (c : Client) : Client :=
  {| net := net c; now := now c; queries := qs; delivered := delivered c;
     fetchLog := fetchLog c; settleLog := settleLog c;
     invalidations := invalidations c |}.

(** Modelled from the spec: [get(key)] of the Cache Store and the in-place
    update of the entry of a key. *)
Definition findEntry (k : Key) (qs : list Entry) : option Entry :=
  find (fun e => Key_eqb (key e) k) qs.

Definition updateEntry (k : Key) (f : Entry -> Entry) (qs : list Entry)
  : list Entry :=
  map (fun e => if Key_eqb (key e) k then f e else e) qs.

Definition freshEntry (opts : UseQueryOptions) : Entry :=
  {| options := opts; status := StPending; data := None; error := None;
     fetchedAt := 0; staleAt := 0; subscriberCount := 0%nat;
     promise := None; attached := [] |}.

Definition callerList (who : option Caller) : list Caller :=
  match who with
  | Some w => [w]
  | None => []
  end.

(** Modelled from the spec: "transition to [pending], invoke the external
    fetcher".  The entry keeps its key, its data and its timestamps. *)
Definition toPending (opts : UseQueryOptions) (outcome : Outcome Value)
    (who : option Caller) (e : Entry) : Entry :=
  {| options := {| queryKey := key e; queryFn := queryFn opts;
                   staleTime := staleTime opts; gcTime := gcTime opts |};
     status := StPending; data := data e; error := error e;
     fetchedAt := fetchedAt e; staleAt := staleAt e;
     subscriberCount := subscriberCount e;
     promise := Some outcome; attached := callerList who |}.

Definition attach (who : option Caller) (e : Entry) : Entry :=
  {| options := options e; status := status e; data := data e;
     error := error e; fetchedAt := fetchedAt e; staleAt := staleAt e;
     subscriberCount := subscriberCount e; promise := promise e;
     attached := (attached e ++ callerList who)%list |}.

Definition startFetch (opts : UseQueryOptions) (who : option Caller)
    (c : Client) : Client :=
  let '(outcome, n) := queryFn opts (net c) in
  let k := queryKey opts in
  let qs :=
    match findEntry k (queries c) with
    | Some _ => updateEntry k (toPending opts outcome who) (queries c)
    | None => (queries c ++ [toPending opts outcome who (freshEntry opts)])%list
    end in
  {| net := n; now := now c; queries := qs; delivered := delivered c;
     fetchLog := k :: fetchLog c; settleLog := settleLog c;
     invalidations := invalidations c |}.

Inductive RequestResult : Type :=
| Cached (d : option Value)
| Joined
| Started.

(** Modelled from the spec: [request(key, fetcher)] of the Fetch
    Coordinator.  A pending entry is joined; a [success] entry with
    [now < staleAt] answers from the cache; anything else starts a fetch. *)
Definition request (opts : UseQueryOptions) (who : option Caller)
    (c : Client) : RequestResult * Client :=
  let k := queryKey opts in
  match findEntry k (queries c) with
  | Some e =>
      match status e with
      | StPending => (Joined, withQueries (updateEntry k (attach who) (queries c)) c)
      | StSuccess =>
          if now c <? staleAt e then (Cached (data e), c)
          else (Started, startFetch opts who c)
      | StError => (Started, startFetch opts who c)
      end
  | None => (Started, startFetch opts who c)
  end.

(** Modelled from the spec: what a completion does to the entry.  Success
    stores the data and resets [fetchedAt] and [staleAt]; failure stores the
    error and leaves the previous data untouched. *)
Definition complete (t : Z) (outcome : Outcome Value) (e : Entry) : Entry :=
  match outcome with
  | Resolved d =>
      {| options := options e; status := StSuccess; data := Some d;
         error := None; fetchedAt := t; staleAt := t + staleTime (options e);
         subscriberCount := subscriberCount e; promise := None;
         attached := [] |}
  | Rejected x =>
      {| options := options e; status := StError; data := data e;
         error := Some x; fetchedAt := fetchedAt e; staleAt := staleAt e;
         subscriberCount := subscriberCount e; promise := None;
         attached := [] |}
  end.

(** Modelled from the spec: the in-flight fetch of [k] completes.  Every
    attached caller is handed the one outcome.  A completion for a key with
    no fetch in flight is dropped. *)
Definition settle (k : Key) (c : Client) : Client :=
  match findEntry k (queries c) with
  | Some e =>
      match status e, promise e with
      | StPending, Some outcome =>
          {| net := net c; now := now c;
             queries := updateEntry k (complete (now c) outcome) (queries c);
             delivered :=
               (delivered c ++ map (fun w => (w, key e, outcome)) (attached e))%list;
             fetchLog := fetchLog c; settleLog := k :: settleLog c;
             invalidations := invalidations c |}
      | _, _ => c
      end
  | None => c
  end.

Definition setSubscribers (f : nat -> nat) (e : Entry) : Entry :=
  {| options := options e; status := status e; data := data e;
     error := error e; fetchedAt := fetchedAt e; staleAt := staleAt e;
     subscriberCount := f (subscriberCount e); promise := promise e;
     attached := attached e |}.

(** Modelled from the spec: the counting part of the Subscription Manager;
    the count never goes below zero. *)
Definition subscribe (k : Key) (c : Client) : Client :=
  withQueries (updateEntry k (setSubscribers S) (queries c)) c.

Definition unsubscribe (k : Key) (c : Client) : Client :=
  withQueries (updateEntry k (setSubscribers Nat.pred) (queries c)) c.

(** Modelled from the spec: only the Invalidation Engine forces a
    [staleAt] in the past. *)
Definition markStale (t : Z) (e : Entry) : Entry :=
  {| options := options e; status := status e; data := data e;
     error := error e; fetchedAt := fetchedAt e; staleAt := t - 1;
     subscriberCount := subscriberCount e; promise := promise e;
     attached := attached e |}.

Definition affected (prefix : Key) (e : Entry) : bool :=
  isPrefixOf prefix (key e).

(** Modelled from the spec: the eager refresh of an entry, through the Fetch
    Coordinator, and [queryClient.invalidateQueries({ queryKey })].
    Every entry whose key the prefix matches is marked stale; then every such
    entry with a subscriber is requested again at once, the others wait for
    their next subscription. *)
Definition refetch (c : Client) (e : Entry) : Client :=
  snd (request (options e) None c).

Definition invalidateQueries (prefix : Key) (c : Client) : Client :=
  let qs := map (fun e => if affected prefix e then markStale (now c) e else e)
                (queries c) in
  let targets :=
    filter (fun e => affected prefix e && (0 <? subscriberCount e)%nat) qs in
  fold_left refetch targets
    {| net := net c; now := now c; queries := qs; delivered := delivered c;
       fetchLog := fetchLog c; settleLog := settleLog c;
       invalidations := (invalidations c ++ [prefix])%list |}.

(** Modelled from the spec: [useQuery(key, fetcher, {staleTime, gcTime})]
    requests the key and subscribes to it. *)
Definition useQuery (opts : UseQueryOptions) (who : Caller) (c : Client)
  : RequestResult * Client :=
  let '(r, c') := request opts (Some who) c in
  (r, subscribe (queryKey opts) c').

(** What a subscriber of a key reads: [{status, data, error}]. *)
Definition read (k : Key) (c : Client)
  : option (Status * option Value * option Error) :=
  match findEntry k (queries c) with
  | Some e => Some (status e, data e, error e)
  | None => None
  end.

(** Modelled from the spec: [useMutation(mutationFn, {onSuccess, onError})]
    and its trigger.  The outcome of the mutation function goes back to the
    caller as a value; [onSuccess] runs after a success only, [onError]
    after a failure only. *)
Definition useMutation {V : Type}
    (mutationFn : V -> Async Value)
    (onSuccess : Value -> V -> Client -> Client)
    (onError : Error -> Client -> Client)
    (variables : V) (c : Client) : Outcome Value * Client :=
  match mutationFn variables (net c) with
  | (Resolved result, n) => (Resolved result, onSuccess result variables (withNet n c))
  | (Rejected e, n) => (Rejected e, onError e (withNet n c))
  end.

(** Time passes. *)
Definition advance (ms : Z) (c : Client) : Client :=
  {| net := net c; now := now c + ms; queries := queries c;
     delivered := delivered c; fetchLog := fetchLog c;
     settleLog := settleLog c; invalidations := invalidations c |}.

(* ===================================================================== *)
(** ** Hooks *)
(* ===================================================================== *)

Definition nat_toString (i : nat) : string :=
  NilZero.string_of_uint (Nat.to_uint i).

Fixpoint indexed {A : Type} (i : nat) (l : list A) : Obj A :=
  match l with
  | [] => []
  | x :: rest => (nat_toString i, x) :: indexed (S i) rest
  end.

(** The own enumerable properties copied by [{ ...v }]. *)
Definition spread (v : Value) : Obj Value :=
  match v with
  | VObj fields => fields
  | VArr items => indexed 0 items
  | VPrim (PStr s) =>
      indexed 0 (map (fun ch => VPrim (PStr (String ch ""))) (list_ascii_of_string s))
  | VPrim _ => []
  end.

(** [usePledgesQuery], lines 206-213. *)
Section Hooks.
Variable encode : string -> string.

Definition usePledgesQuery (params : PledgeQueryParams)
  : Caller -> Client -> RequestResult * Client :=
  useQuery {| queryKey := pledgeKeys.list params;
              queryFn := fetchPledges encode params;
              staleTime := 1000 * 60 * 5;
              gcTime := 1000 * 60 * 30 |}.
End Hooks.

(** [useCreatePledgeMutation], lines 215-240: the three options it passes to
    [useMutation], and the trigger it gets back. *)
Module useCreatePledgeMutation.
Definition mutationFn : CreatePledgeData -> Async Value := createPledge.

Definition onSuccess (data : Value) (variables : CreatePledgeData)
    (queryClient : Client) : Client :=
  let queryClient := invalidateQueries pledgeKeys.all queryClient in
  let queryClient :=
    invalidateQueries
      (pledgeKeys.list [("contactId", get "contactId" variables)])
      queryClient in
  if truthy (get "categoryId" variables) then
    invalidateQueries
      (pledgeKeys.list [("categoryId", get "categoryId" variables)])
      queryClient
  else queryClient.

Definition onError (error : Error) (c : Client) : Client :=
  withNet (console_error "Error creating pledge:" error (net c)) c.

Definition mutate : CreatePledgeData -> Client -> Outcome Value * Client :=
  useMutation mutationFn onSuccess onError.
End useCreatePledgeMutation.

(** [useCreatePaymentMutation], lines 242-268. *)
Module useCreatePaymentMutation.
Definition mutationFn : CreatePaymentData -> Async Value := createPayment.

Definition onSuccess (data : Value) (variables : CreatePaymentData)
    (queryClient : Client) : Client :=
  let queryClient := invalidateQueries paymentKeys.all queryClient in
  let queryClient :=
    invalidateQueries (paymentKeys.byPledge (get "pledgeId" variables))
      queryClient in
  let queryClient := invalidateQueries pledgeKeys.all queryClient in
  invalidateQueries (pledgeKeys.detail (get "pledgeId" variables))
    queryClient.

Definition onError (error : Error) (c : Client) : Client :=
  withNet (console_error "Error creating payment:" error (net c)) c.

Definition mutate : CreatePaymentData -> Client -> Outcome Value * Client :=
  useMutation mutationFn onSuccess onError.
End useCreatePaymentMutation.

(** [useCreatePledgeAndPayMutation], lines 271-297. *)
Module useCreatePledgeAndPayMutation.
Definition mutationFn (data : CreatePledgeAndPayData) : Async Value :=
  let shouldRedirectToPay := get "shouldRedirectToPay" data in
  let pledgeData := omit "shouldRedirectToPay" data in
  result <- createPledge pledgeData ;;
  ret (VObj (assign "shouldRedirectToPay" (VPrim shouldRedirectToPay)
               (spread result))).

Definition onSuccess (data : Value) (variables : CreatePledgeAndPayData)
    (queryClient : Client) : Client :=
  let queryClient := invalidateQueries pledgeKeys.all queryClient in
  let queryClient :=
    invalidateQueries
      (pledgeKeys.list [("contactId", get "contactId" variables)])
      queryClient in
  if truthy (get "categoryId" variables) then
    invalidateQueries
      (pledgeKeys.list [("categoryId", get "categoryId" variables)])
      queryClient
  else queryClient.

Definition onError (error : Error) (c : Client) : Client :=
  withNet (console_error "Error creating pledge:" error (net c)) c.

Definition mutate
  : CreatePledgeAndPayData -> Client -> Outcome Value * Client :=
  useMutation mutationFn onSuccess onError.
End useCreatePledgeAndPayMutation.

(* ===================================================================== *)
(** ** Histories *)
(* ===================================================================== *)

(** What can happen to a client: the hooks of the module are used, the
    cache is driven directly, a fetch completes, time passes. *)
Inductive Event : Type :=
| EvPledgesQuery (params : PledgeQueryParams) (who : Caller)
| EvCreatePledge (variables : CreatePledgeData)
| EvCreatePayment (variables : CreatePaymentData)
| EvCreatePledgeAndPay (variables : CreatePledgeAndPayData)
| EvUseQuery (opts : UseQueryOptions) (who : Caller)
| EvRequest (opts : UseQueryOptions) (who : option Caller)
| EvInvalidate (prefix : Key)
| EvSubscribe (k : Key)
| EvUnsubscribe (k : Key)
| EvSettle (k : Key)
| EvAdvance (ms : Z).

Section Histories.
Variable encode : string -> string.

Definition step (c : Client) (ev : Event) : Client :=
  match ev with
  | EvPledgesQuery params who => snd (usePledgesQuery encode params who c)
  | EvCreatePledge variables => snd (useCreatePledgeMutation.mutate variables c)
  | EvCreatePayment variables => snd (useCreatePaymentMutation.mutate variables c)
  | EvCreatePledgeAndPay variables =>
      snd (useCreatePledgeAndPayMutation.mutate variables c)
  | EvUseQuery opts who => snd (useQuery opts who c)
  | EvRequest opts who => snd (request opts who c)
  | EvInvalidate prefix => invalidateQueries prefix c
  | EvSubscribe k => subscribe k c
  | EvUnsubscribe k => unsubscribe k c
  | EvSettle k => settle k c
  | EvAdvance ms => advance ms c
  end.

Definition run (events : list Event) (c : Client) : Client :=
  fold_left step events c.
End Histories.




Definition pendingIn (k : Key) (qs : list Entry) : bool :=
  match findEntry k qs with
  | Some e => match status e with StPending => true | _ => false end
  | None => false
  end.




(** The entry a fetch starts from: the cached one, or a new one. *)
Definition entryOr (opts : UseQueryOptions) (c : Client) : Entry :=
  match findEntry (queryKey opts) (queries c) with
  | Some e => e
  | None => freshEntry opts
  end.

(** What one invalidation pass may do to an entry: the key stays; an entry
    whose key satisfies [P] has its [staleAt] forced to just before [t]; any
    other entry is untouched. *)
Definition touched (P : Key -> bool) (t : Z) (e e' : Entry) : Prop :=
  key e' = key e /\
  if P (key e) then staleAt e' = t - 1 else e' = e.

(** What a request for [k] may do to an entry: key and [staleAt] stay, and
    an entry of another key is untouched. *)
Definition requestStep (k : Key) (e e' : Entry) : Prop :=
  key e' = key e /\ staleAt e' = staleAt e /\
  (Key_eqb (key e) k = false -> e' = e).

Definition refetchStep (P : Key -> bool) (e e' : Entry) : Prop :=
  key e' = key e /\ staleAt e' = staleAt e /\ (P (key e) = false -> e' = e).

(* ===================================================================== *)
(** ** The invalidation rules as the specification words them *)
(* ===================================================================== *)


(** The specification's rule for create-payment, for the payment's pledge
    and a contact: after a success the entries marked stale are exactly those
    under [payments, list, pledge, p], [payments, list, contact, c],
    [pledges, list] or [pledges, detail, p]; the [staleAt] of any other entry
    is what it was. *)
Definition claimedPaymentPrefixes (pledgeId contactId : Prim) (k : Key) : bool :=
  isPrefixOf (paymentKeys.byPledge pledgeId) k ||
  isPrefixOf (paymentKeys.byContact contactId) k ||
  isPrefixOf pledgeKeys.lists k ||
  isPrefixOf (pledgeKeys.detail pledgeId) k.

Definition marksExactly (P : Key -> bool) (t : Z) (e e' : Entry) : Prop :=
  key e' = key e /\
  if P (key e) then staleAt e' = t - 1 else staleAt e' = staleAt e.

Definition claimed_createPayment_invalidation
    (variables : CreatePaymentData) (contactId : Prim) (c : Client) : Prop :=
  forall result,
    fst (useCreatePaymentMutation.mutate variables c) = Resolved result ->
    Forall2
      (marksExactly
         (claimedPaymentPrefixes (get "pledgeId" variables) contactId) (now c))
      (queries c)
      (queries (snd (useCreatePaymentMutation.mutate variables c))).


(** What a failed mutation leaves behind: the one request of the mutation
    went out, the error was logged, and the cache is as it was. *)
Definition onlyLogged (label : string) (e : Error) (req : Request)
    (c c' : Client) : Prop :=
  queries c' = queries c /\
  invalidations c' = invalidations c /\
  fetchLog c' = fetchLog c /\
  settleLog c' = settleLog c /\
  delivered c' = delivered c /\
  now c' = now c /\
  sent (net c') = (sent (net c) ++ [req])%list /\
  console (net c') = (console (net c) ++ [(label, e)])%list.

(* ===================================================================== *)
(** ** Sample data *)
(* ===================================================================== *)

Definition okResponse (v : Value) : Outcome Response :=
  Resolved {| ok := true; statusText := "OK"; json := Some v |}.

Definition failedResponse (text : string) : Outcome Response :=
  Resolved {| ok := false; statusText := text; json := Some (VObj []) |}.

Definition sampleData : Value :=
  VObj [("pledges", VArr []); ("pagination", VObj []); ("filters", VObj [])].

Definition sampleFetcher (address : string) : Async Value :=
  response <- fetch {| url := address; method := "GET"; headers := [];
                       body := None |} ;;
  response_json response.

(** An entry that was fetched successfully at time [1000] with the stale
    time of [usePledgesQuery]. *)
Definition freshSuccess (k : Key) (subscribers : nat) : Entry :=
  {| options := {| queryKey := k; queryFn := sampleFetcher "/api/sample";
                   staleTime := 300000; gcTime := 1800000 |};
     status := StSuccess; data := Some sampleData; error := None;
     fetchedAt := 1000; staleAt := 301000; subscriberCount := subscribers;
     promise := None; attached := [] |}.

(** A client at time [5000] holding the detail of pledge 8 and the payments
    of pledge 7, to which the network will answer once, with a success. *)
Definition sampleClient : Client :=
  {| net := {| sent := [];
               replies := [okResponse (VObj [("message", VPrim (PStr "created"))])];
               console := [] |};
     now := 5000;
     queries := [freshSuccess (pledgeKeys.detail (PNum 8)) 0;
                 freshSuccess (paymentKeys.byPledge (PNum 7)) 1];
     delivered := []; fetchLog := []; settleLog := []; invalidations := [] |}.

(** The same client, to which the network will answer with a failure. *)
Definition sampleClientFailing : Client :=
  {| net := {| sent := []; replies := [failedResponse "Bad Request"];
               console := [] |};
     now := 5000;
     queries := queries sampleClient;
     delivered := []; fetchLog := []; settleLog := []; invalidations := [] |}.

Definition samplePayment : CreatePaymentData :=
  [("pledgeId", PNum 7); ("amount", PNum 100); ("currency", PStr "USD");
   ("paymentDate", PStr "2025-01-15")].

Definition samplePledge (categoryId : Z) : CreatePledgeData :=
  [("contactId", PNum 3); ("categoryId", PNum categoryId);
   ("pledgeDate", PStr "2025-01-15"); ("description", PStr "Building fund");
   ("originalAmount", PNum 500); ("currency", PStr "USD");
   ("originalAmountUsd", PNum 500)].

Definition sampleParams : PledgeQueryParams :=
  [("contactId", PNum 3); ("page", PNum 1)].

(** The same bag, its fields inserted in the other order. *)
Definition sampleParamsSwapped : PledgeQueryParams :=
  [("page", PNum 1); ("contactId", PNum 3)].

(** A client at time [400000], when the pledge list fetched at time [1000]
    has gone stale; [script] is what the network will answer. *)
Definition staleClient (script : list (Outcome Response)) : Client :=
  {| net := {| sent := []; replies := script; console := [] |};
     now := 400000;
     queries := [freshSuccess (pledgeKeys.list sampleParams) 0;
                 freshSuccess (pledgeKeys.detail (PNum 8)) 1];
     delivered := []; fetchLog := []; settleLog := []; invalidations := [] |}.

(* ===================================================================== *)
(** ** The payment plans table: URL state and display helpers *)
(* ===================================================================== *)

(** The functions below are those the component [PaymentPlansTable] defines
    inline. *)

(** A [Set<number>]: its elements in insertion order, each once. *)
Definition NumberSet : Type := list Z.

Definition Set_has (x : Z) (s : NumberSet) : bool := existsb (Z.eqb x) s.

Definition Set_delete (x : Z) (s : NumberSet) : NumberSet :=
  filter (fun y => negb (x =? y)) s.

Definition Set_add (x : Z) (s : NumberSet) : NumberSet :=
  if Set_has x s then s else (s ++ [x])%list.

(** [toggleRowExpansion], lines 112-120 of the component: the set handed to
    [setExpandedRows]; the set it was made from is not changed. *)
Definition toggleRowExpansion (planId : Z) (expandedRows : NumberSet)
  : NumberSet :=
  let newExpanded := expandedRows in
  if Set_has planId newExpanded then Set_delete planId newExpanded
  else Set_add planId newExpanded.

(** The pagination footer, lines 481-511 of the component: "Showing [from]
    to [to] of [length]", shown when there are rows, and the two buttons. *)
Definition showingFrom (currentPage currentLimit : Z) : Z :=
  (currentPage - 1) * currentLimit + 1.

Definition showingTo (currentPage currentLimit length : Z) : Z :=
  Z.min (currentPage * currentLimit) length.

Definition previousDisabled (currentPage : Z) : bool := currentPage <=? 1.

Definition nextDisabled (length currentLimit : Z) : bool :=
  length <? currentLimit.

(** Sample replies: a network that has sent nothing yet and will answer with
    [script]; a refusal with a JSON error; a refusal with an HTML page. *)
Definition replyingNet (script : list (Outcome Response)) : Net :=
  {| sent := []; replies := script; console := [] |}.


Definition badGateway : Response :=
  {| ok := false; statusText := "Bad Gateway"; json := None |}.
(* ===================================================================== *)
(** ** Properties of keys *)
(* ===================================================================== *)

Open Scope list_scope.

Lemma Prim_eqb_eq (a b : Prim) : Prim_eqb a b = true <-> a = b.
Proof.
  unfold Prim_eqb. destruct (Prim_eq_dec a b); split; congruence.
Qed.

Lemma Prim_eqb_refl (a : Prim) : Prim_eqb a a = true.
Proof. now apply Prim_eqb_eq. Qed.

Lemma lookup_absent {A : Type} (k : string) (o : Obj A) :
  ~ In k (keys o) -> lookup k o = None.
Proof.
  induction o as [|[k' v] rest IH]; simpl; intros Hnot.
  - reflexivity.
  - destruct (String.eqb_spec k k') as [->|Hne].
    + exfalso. apply Hnot. now left.
    + apply IH. intros Hin. apply Hnot. now right.
Qed.

Lemma get_absent (k : string) (o : Obj Prim) :
  ~ In k (keys o) -> get k o = PUndefined.
Proof. intros H. unfold get. now rewrite lookup_absent. Qed.

Lemma bag_eqb_eqv (p q : Obj Prim) : bag_eqb p q = true <-> bag_eqv p q.
Proof.
  unfold bag_eqb, bag_eqv. rewrite forallb_forall. split.
  - intros H k.
    destruct (in_dec string_dec k (keys p ++ keys q)) as [Hin|Hout].
    + now apply Prim_eqb_eq, H.
    + rewrite !get_absent; [reflexivity | |];
        intros Hin; apply Hout, in_or_app; auto.
  - intros H k _. rewrite H. apply Prim_eqb_refl.
Qed.

Lemma bag_extends_spec (p q : Obj Prim) :
  bag_extends p q = true <-> forall k, In k (keys p) -> get k p = get k q.
Proof.
  unfold bag_extends. rewrite forallb_forall. split; intros H k Hin.
  - now apply Prim_eqb_eq, H.
  - apply Prim_eqb_eq. now apply H.
Qed.

Lemma KeyPart_eqb_refl (x : KeyPart) : KeyPart_eqb x x = true.
Proof.
  destruct x; simpl; [apply Prim_eqb_refl | now apply bag_eqb_eqv].
Qed.

Lemma KeyPart_eqb_sym (x y : KeyPart) :
  KeyPart_eqb x y = true -> KeyPart_eqb y x = true.
Proof.
  destruct x, y; simpl; try discriminate.
  - rewrite !Prim_eqb_eq. congruence.
  - rewrite !bag_eqb_eqv. unfold bag_eqv. intros H k. now rewrite H.
Qed.

Lemma KeyPart_eqb_trans (x y z : KeyPart) :
  KeyPart_eqb x y = true -> KeyPart_eqb y z = true -> KeyPart_eqb x z = true.
Proof.
  destruct x, y, z; simpl; try discriminate.
  - rewrite !Prim_eqb_eq. congruence.
  - rewrite !bag_eqb_eqv. unfold bag_eqv. intros H1 H2 k.
    now rewrite H1, H2.
Qed.

Lemma Key_eqb_refl (a : Key) : Key_eqb a a = true.
Proof.
  induction a as [|x a IH]; simpl; [reflexivity|].
  now rewrite KeyPart_eqb_refl, IH.
Qed.

Lemma Key_eqb_sym (a b : Key) : Key_eqb a b = true -> Key_eqb b a = true.
Proof.
  revert b. induction a as [|x a IH]; intros [|y b]; simpl;
    try discriminate; [reflexivity|].
  rewrite !andb_true_iff. intros [H1 H2]. split.
  - now apply KeyPart_eqb_sym.
  - now apply IH.
Qed.

Lemma Key_eqb_trans (a b c : Key) :
  Key_eqb a b = true -> Key_eqb b c = true -> Key_eqb a c = true.
Proof.
  revert b c. induction a as [|x a IH]; intros [|y b] [|z c]; simpl;
    try discriminate; [reflexivity|].
  rewrite !andb_true_iff. intros [H1 H2] [H3 H4]. split.
  - now apply KeyPart_eqb_trans with y.
  - now apply IH with b.
Qed.

(** Equal keys are interchangeable on either side of a comparison. *)
Lemma Key_eqb_congr_l (a a' b : Key) :
  Key_eqb a a' = true -> Key_eqb a b = Key_eqb a' b.
Proof.
  intros H. destruct (Key_eqb a' b) eqn:E.
  - now apply Key_eqb_trans with a'.
  - destruct (Key_eqb a b) eqn:E'; [|reflexivity].
    rewrite <- E. symmetry.
    apply Key_eqb_trans with a; [now apply Key_eqb_sym | exact E'].
Qed.

Lemma Key_eqb_congr_r (a b b' : Key) :
  Key_eqb b b' = true -> Key_eqb a b = Key_eqb a b'.
Proof.
  intros H. destruct (Key_eqb a b') eqn:E.
  - apply Key_eqb_trans with b'; [exact E | now apply Key_eqb_sym].
  - destruct (Key_eqb a b) eqn:E'; [|reflexivity].
    rewrite <- E. symmetry. now apply Key_eqb_trans with b.
Qed.

Lemma KeyPart_matches_refl (x : KeyPart) : KeyPart_matches x x = true.
Proof.
  destruct x; simpl; [apply Prim_eqb_refl|].
  now apply bag_extends_spec.
Qed.

Lemma KeyPart_matches_congr (x y y' : KeyPart) :
  KeyPart_eqb y y' = true -> KeyPart_matches x y = KeyPart_matches x y'.
Proof.
  destruct x, y, y'; simpl; try discriminate; try reflexivity.
  - rewrite Prim_eqb_eq. now intros ->.
  - rewrite bag_eqb_eqv. intros H. unfold bag_extends.
    induction (keys o) as [|k ks IH]; simpl; [reflexivity|].
    now rewrite IH, (H k).
Qed.

(** Matching by prefix does not tell equal keys apart. *)
Lemma isPrefixOf_congr (a b b' : Key) :
  Key_eqb b b' = true -> isPrefixOf a b = isPrefixOf a b'.
Proof.
  revert b b'. induction a as [|x a IH]; intros [|y b] [|y' b']; simpl;
    try discriminate; try reflexivity.
  rewrite andb_true_iff. intros [H1 H2].
  now rewrite (KeyPart_matches_congr x y y' H1), (IH b b' H2).
Qed.

Lemma isPrefixOf_app (a rest : Key) : isPrefixOf a (a ++ rest) = true.
Proof.
  induction a as [|x a IH]; simpl; [reflexivity|].
  now rewrite KeyPart_matches_refl, IH.
Qed.

Lemma key_prefix_isPrefixOf (a b : Key) :
  key_prefix a b -> isPrefixOf a b = true.
Proof. intros [rest ->]. apply isPrefixOf_app. Qed.

(** A prefix of a prefix matches whatever the longer one matches. *)
Lemma isPrefixOf_shorter (a rest b : Key) :
  isPrefixOf (a ++ rest) b = true -> isPrefixOf a b = true.
Proof.
  revert b. induction a as [|x a IH]; intros b; simpl; [reflexivity|].
  destruct b as [|y b]; [discriminate|].
  rewrite !andb_true_iff. intros [H1 H2]. split; [exact H1 | now apply IH].
Qed.

Lemma findEntry_congr (k k' : Key) (qs : list Entry) :
  Key_eqb k k' = true -> findEntry k qs = findEntry k' qs.
Proof.
  intros H. unfold findEntry.
  induction qs as [|e qs IH]; simpl; [reflexivity|].
  now rewrite (Key_eqb_congr_r (key e) k k' H), IH.
Qed.

(** C7.  The keys built by the module form a prefix hierarchy: the root of
    a family is a prefix of its list key, which is a prefix of every
    parameterized list key; the root is a prefix of every detail key; and for
    payments the root is a prefix of the list key, which is a prefix of the
    by-pledge and by-contact keys.  Each prefix is a prefix as a list and is
    recognised by [isPrefixOf]. *)
Theorem keys_form_prefix_hierarchy (params : PledgeQueryParams) (n : Z) :
  (key_prefix pledgeKeys.all pledgeKeys.lists /\
   key_prefix pledgeKeys.lists (pledgeKeys.list params) /\
   key_prefix pledgeKeys.all pledgeKeys.details /\
   key_prefix pledgeKeys.details (pledgeKeys.detail (PNum n)) /\
   key_prefix pledgeKeys.all (pledgeKeys.detail (PNum n)) /\
   key_prefix paymentKeys.all paymentKeys.lists /\
   key_prefix paymentKeys.lists (paymentKeys.byPledge (PNum n)) /\
   key_prefix paymentKeys.lists (paymentKeys.byContact (PNum n))) /\
  (isPrefixOf pledgeKeys.all pledgeKeys.lists = true /\
   isPrefixOf pledgeKeys.lists (pledgeKeys.list params) = true /\
   isPrefixOf pledgeKeys.all (pledgeKeys.list params) = true /\
   isPrefixOf pledgeKeys.all (pledgeKeys.detail (PNum n)) = true /\
   isPrefixOf paymentKeys.all paymentKeys.lists = true /\
   isPrefixOf paymentKeys.lists (paymentKeys.byPledge (PNum n)) = true /\
   isPrefixOf paymentKeys.all (paymentKeys.byPledge (PNum n)) = true /\
   isPrefixOf paymentKeys.lists (paymentKeys.byContact (PNum n)) = true /\
   isPrefixOf paymentKeys.all (paymentKeys.byContact (PNum n)) = true).
Proof.
  split.
  - repeat match goal with |- _ /\ _ => split end.
    + now exists [tag "list"].
    + now exists [KObj params].
    + now exists [tag "detail"].
    + now exists [KPrim (PNum n)].
    + now exists [tag "detail"; KPrim (PNum n)].
    + now exists [tag "list"].
    + now exists [tag "pledge"; KPrim (PNum n)].
    + now exists [tag "contact"; KPrim (PNum n)].
  - repeat match goal with |- _ /\ _ => split end;
      apply key_prefix_isPrefixOf.
    + now exists [tag "list"].
    + now exists [KObj params].
    + now exists [tag "list"; KObj params].
    + now exists [tag "detail"; KPrim (PNum n)].
    + now exists [tag "list"].
    + now exists [tag "pledge"; KPrim (PNum n)].
    + now exists [tag "list"; tag "pledge"; KPrim (PNum n)].
    + now exists [tag "contact"; KPrim (PNum n)].
    + now exists [tag "list"; tag "contact"; KPrim (PNum n)].
Qed.


(* ===================================================================== *)
(** ** Properties of objects and of the API functions *)
(* ===================================================================== *)







(** Case analysis on every branch an asynchronous function can take. *)
Ltac async_cases :=
  repeat match goal with
    | |- context [match replies ?n with _ => _ end] =>
        destruct (replies n) as [|[?|?] ?]; simpl
    | |- context [if negb (ok ?r) then _ else _] => destruct (ok r); simpl
    | |- context [match json ?r with _ => _ end] => destruct (json r); simpl
    | |- context [match lookup ?k ?o with _ => _ end] =>
        destruct (lookup k o); simpl
    | |- context [member _ ?v] => destruct v as [[| | | |]| |]; simpl
    end.

Lemma createPledge_effects (data : CreatePledgeData) (n : Net) :
  sent (snd (createPledge data n)) = sent n ++ [createPledge_request data] /\
  console (snd (createPledge data n)) = console n.
Proof.
  unfold createPledge, createPledge_request, bind, fetch, response_json,
    throw, ret.
  async_cases; split; reflexivity.
Qed.

Lemma createPayment_effects (data : CreatePaymentData) (n : Net) :
  sent (snd (createPayment data n)) = sent n ++ [createPayment_request data] /\
  console (snd (createPayment data n)) = console n.
Proof.
  unfold createPayment, createPayment_request, bind, fetch, response_json,
    throw, ret.
  async_cases; split; reflexivity.
Qed.

Lemma isPresent_false (value : Prim) :
  isPresent value = false <->
  value = PUndefined \/ value = PNull \/ value = PStr "".
Proof.
  unfold isPresent. split.
  - intros H.
    destruct (Prim_eq_dec value PUndefined) as [->|H1]; [now left|].
    destruct (Prim_eq_dec value PNull) as [->|H2]; [now right; left|].
    destruct (Prim_eq_dec value (PStr "")) as [->|H3]; [now right; right|].
    exfalso. unfold Prim_eqb in H.
    destruct (Prim_eq_dec value PUndefined); [contradiction|].
    destruct (Prim_eq_dec value PNull); [contradiction|].
    destruct (Prim_eq_dec value (PStr "")); [contradiction|].
    discriminate.
  - intros [ -> | [ -> | -> ] ]; reflexivity.
Qed.

Lemma fetchPledges_searchParams_filter (params : PledgeQueryParams) :
  fetchPledges_searchParams params
  = map (fun kv => (fst kv, Prim_toString (snd kv)))
        (filter (fun kv => isPresent (snd kv)) params).
Proof.
  induction params as [|[k v] rest IH]; simpl; [reflexivity|].
  destruct (isPresent v); simpl; now rewrite IH.
Qed.

Lemma fetchPledges_effects (encode : string -> string)
    (params : PledgeQueryParams) (n : Net) :
  sent (snd (fetchPledges encode params n))
  = sent n ++ [fetchPledges_request encode params] /\
  console (snd (fetchPledges encode params n)) = console n.
Proof.
  unfold fetchPledges, bind, fetch, response_json, throw, ret.
  async_cases; split; reflexivity.
Qed.

(** C9.  [fetchPledges] builds the query string of its request from
    exactly the fields of the bag whose value is neither [undefined], nor
    [null], nor the empty string, in the order of the bag, each as the pair
    of its name and [value.toString()]; a name all of whose values are among
    those three does not occur in the query string; and the URL requested is
    ["/api/pledges?"] followed by the serialisation of those pairs. *)
Theorem fetchPledges_query_string (encode : string -> string)
    (params : PledgeQueryParams) (n : Net) :
  fetchPledges_searchParams params
  = map (fun kv => (fst kv, Prim_toString (snd kv)))
        (filter (fun kv => isPresent (snd kv)) params) /\
  (forall k s,
      In (k, s) (fetchPledges_searchParams params) <->
      exists value,
        In (k, value) params /\
        value <> PUndefined /\ value <> PNull /\ value <> PStr "" /\
        s = Prim_toString value) /\
  (forall k,
      (forall value, In (k, value) params ->
                     value = PUndefined \/ value = PNull \/ value = PStr "") ->
      ~ In k (map fst (fetchPledges_searchParams params))) /\
  sent (snd (fetchPledges encode params n))
  = sent n ++
    [{| url := ("/api/pledges?" ++
                URLSearchParams_toString encode
                  (fetchPledges_searchParams params))%string;
        method := "GET"; headers := []; body := None |}].
Proof.
  assert (Hiff : forall k s,
      In (k, s) (fetchPledges_searchParams params) <->
      exists value,
        In (k, value) params /\
        value <> PUndefined /\ value <> PNull /\ value <> PStr "" /\
        s = Prim_toString value).
  { intros k s. rewrite fetchPledges_searchParams_filter, in_map_iff. split.
    - intros [[k' v] [Heq Hin]]. simpl in Heq. inversion Heq; subst.
      apply filter_In in Hin. destruct Hin as [Hin Hp]. simpl in Hp.
      exists v. split; [exact Hin|].
      repeat split; try reflexivity; intros ->; discriminate.
    - intros (v & Hin & H1 & H2 & H3 & ->).
      exists (k, v). split; [reflexivity|].
      apply filter_In. split; [exact Hin|]. simpl.
      destruct (isPresent v) eqn:E; [reflexivity|].
      apply isPresent_false in E. tauto. }
  split; [apply fetchPledges_searchParams_filter|].
  split; [exact Hiff|]. split.
  - intros k Hall Hin. apply in_map_iff in Hin.
    destruct Hin as [[k' s] [Hk Hin]]. simpl in Hk. subst k'.
    apply Hiff in Hin. destruct Hin as (v & Hin & H1 & H2 & H3 & _).
    destruct (Hall v Hin) as [?|[?|?]]; contradiction.
  - apply fetchPledges_effects.
Qed.


(* ===================================================================== *)
(** ** Properties of the cache *)
(* ===================================================================== *)

Lemma Forall2_same {A : Type} (R : A -> A -> Prop) (l : list A) :
  (forall x, In x l -> R x x) -> Forall2 R l l.
Proof.
  induction l as [|x l IH]; intros H; constructor.
  - apply H. now left.
  - apply IH. intros y Hy. apply H. now right.
Qed.

Lemma Forall2_map_r {A : Type} (R : A -> A -> Prop) (f : A -> A)
    (l : list A) :
  (forall x, In x l -> R x (f x)) -> Forall2 R l (map f l).
Proof.
  induction l as [|x l IH]; intros H; simpl; constructor.
  - apply H. now left.
  - apply IH. intros y Hy. apply H. now right.
Qed.

Lemma Forall2_compose {A : Type} (R1 R2 R3 : A -> A -> Prop)
    (a b c : list A) :
  (forall x y z, R1 x y -> R2 y z -> R3 x z) ->
  Forall2 R1 a b -> Forall2 R2 b c -> Forall2 R3 a c.
Proof.
  intros Hcomp Hab. revert c.
  induction Hab as [|x y a b Hxy Hab IH]; intros c Hbc;
    inversion Hbc; subst; constructor; eauto.
Qed.

Lemma Forall2_weaken {A : Type} (R1 R2 : A -> A -> Prop) (a b : list A) :
  (forall x y, R1 x y -> R2 x y) -> Forall2 R1 a b -> Forall2 R2 a b.
Proof. intros H Hab. induction Hab; constructor; auto. Qed.

Lemma Forall2_In_l {A : Type} (R : A -> A -> Prop) (a b : list A) (x : A) :
  Forall2 R a b -> In x a -> exists y, In y b /\ R x y.
Proof.
  intros Hab. induction Hab as [|x0 y0 a b Hxy Hab IH]; intros Hin.
  - destruct Hin.
  - destruct Hin as [<-|Hin].
    + exists y0. split; [now left | exact Hxy].
    + destruct (IH Hin) as [y [Hy HR]]. exists y. split; [now right | exact HR].
Qed.

Lemma findEntry_present (k : Key) (qs : list Entry) (e : Entry) :
  In e qs -> Key_eqb (key e) k = true -> findEntry k qs <> None.
Proof.
  intros Hin Hk Hnone. unfold findEntry in Hnone.
  pose proof (find_none _ _ Hnone e Hin) as H. simpl in H. congruence.
Qed.

Lemma updateEntry_requestStep (k : Key) (f : Entry -> Entry)
    (qs : list Entry) :
  (forall e, key (f e) = key e /\ staleAt (f e) = staleAt e) ->
  Forall2 (requestStep k) qs (updateEntry k f qs).
Proof.
  intros Hf. unfold updateEntry. apply Forall2_map_r. intros e _.
  unfold requestStep. destruct (Key_eqb (key e) k).
  - destruct (Hf e) as [H1 H2]. repeat split; auto. discriminate.
  - repeat split; reflexivity.
Qed.

Lemma requestStep_refl (k : Key) (qs : list Entry) :
  Forall2 (requestStep k) qs qs.
Proof. apply Forall2_same. intros e _. repeat split; reflexivity. Qed.

Lemma startFetch_queries (opts : UseQueryOptions) (who : option Caller)
    (c : Client) :
  findEntry (queryKey opts) (queries c) <> None ->
  Forall2 (requestStep (queryKey opts)) (queries c)
    (queries (startFetch opts who c)).
Proof.
  intros Hsome. unfold startFetch.
  destruct (queryFn opts (net c)) as [outcome n]. simpl.
  destruct (findEntry (queryKey opts) (queries c)); [|contradiction].
  apply updateEntry_requestStep. intros e0. split; reflexivity.
Qed.

Lemma request_queries (opts : UseQueryOptions) (who : option Caller)
    (c : Client) :
  findEntry (queryKey opts) (queries c) <> None ->
  Forall2 (requestStep (queryKey opts)) (queries c)
    (queries (snd (request opts who c))).
Proof.
  intros Hsome. pose proof (startFetch_queries opts who c Hsome) as Hstart.
  unfold request.
  destruct (findEntry (queryKey opts) (queries c)) as [e|]; [|contradiction].
  destruct (status e); simpl.
  - apply updateEntry_requestStep. intros e0. split; reflexivity.
  - destruct (now c <? staleAt e); simpl;
      [apply requestStep_refl | exact Hstart].
  - exact Hstart.
Qed.

Lemma startFetch_frame (opts : UseQueryOptions) (who : option Caller)
    (c : Client) :
  now (startFetch opts who c) = now c /\
  invalidations (startFetch opts who c) = invalidations c /\
  delivered (startFetch opts who c) = delivered c /\
  settleLog (startFetch opts who c) = settleLog c.
Proof.
  unfold startFetch. destruct (queryFn opts (net c)) as [outcome n].
  simpl. repeat split; reflexivity.
Qed.

Lemma request_frame (opts : UseQueryOptions) (who : option Caller)
    (c : Client) :
  now (snd (request opts who c)) = now c /\
  invalidations (snd (request opts who c)) = invalidations c /\
  delivered (snd (request opts who c)) = delivered c /\
  settleLog (snd (request opts who c)) = settleLog c.
Proof.
  pose proof (startFetch_frame opts who c) as Hstart.
  unfold request.
  destruct (findEntry (queryKey opts) (queries c)) as [e|]; [|exact Hstart].
  destruct (status e); simpl; [repeat split; reflexivity | | exact Hstart].
  destruct (now c <? staleAt e); simpl;
    [repeat split; reflexivity | exact Hstart].
Qed.

Lemma refetch_all (P : Key -> bool) (targets : list Entry) (c : Client) :
  (forall k k', Key_eqb k k' = true -> P k = P k') ->
  (forall t, In t targets ->
             P (key t) = true /\ exists e, In e (queries c) /\ key e = key t) ->
  Forall2 (refetchStep P) (queries c) (queries (fold_left refetch targets c)) /\
  now (fold_left refetch targets c) = now c /\
  invalidations (fold_left refetch targets c) = invalidations c.
Proof.
  intros Hcongr. revert c.
  induction targets as [|t ts IH]; intros c Hts; simpl.
  - split; [|split; reflexivity].
    apply Forall2_same. intros e _. repeat split; reflexivity.
  - destruct (Hts t (or_introl eq_refl)) as [HP [e0 [Hin0 Hk0]]].
    assert (Hsome : findEntry (queryKey (options t)) (queries c) <> None).
    { apply findEntry_present with e0; [exact Hin0|].
      fold (key t). rewrite Hk0. apply Key_eqb_refl. }
    pose proof (request_queries (options t) None c Hsome) as Hstep.
    pose proof (request_frame (options t) None c) as (Hnow & Hinv & _ & _).
    fold (refetch c t) in Hstep, Hnow, Hinv.
    destruct (IH (refetch c t)) as (Hrest & Hnow' & Hinv').
    { intros t' Hin'. destruct (Hts t' (or_intror Hin')) as [HP' [e1 [Hin1 Hk1]]].
      split; [exact HP'|].
      destruct (Forall2_In_l _ _ _ e1 Hstep Hin1) as [e2 [Hin2 [Hk2 _]]].
      exists e2. split; [exact Hin2 | congruence]. }
    split; [|split; congruence].
    eapply Forall2_compose; [|exact Hstep|exact Hrest].
    intros x y z (Hk1 & Hs1 & Hsame1) (Hk2 & Hs2 & Hsame2).
    repeat split; try congruence.
    intros HPx. rewrite Hsame2, Hsame1; try reflexivity.
    + destruct (Key_eqb (key x) (queryKey (options t))) eqn:E; [|reflexivity].
      fold (key t) in E. rewrite (Hcongr _ _ E) in HPx. congruence.
    + rewrite Hk1. exact HPx.
Qed.

Lemma invalidateQueries_spec (prefix : Key) (c : Client) :
  Forall2 (touched (isPrefixOf prefix) (now c)) (queries c)
    (queries (invalidateQueries prefix c)) /\
  now (invalidateQueries prefix c) = now c /\
  invalidations (invalidateQueries prefix c) = invalidations c ++ [prefix].
Proof.
  unfold invalidateQueries.
  set (mark := fun e => if affected prefix e then markStale (now c) e else e).
  set (qs := map mark (queries c)).
  set (targets := filter _ qs).
  set (c0 := Build_Client _ _ _ _ _ _ _).
  destruct (refetch_all (isPrefixOf prefix) targets c0) as (Hre & Hnow & Hinv).
  { intros k k'. apply isPrefixOf_congr. }
  { intros t Hin. apply filter_In in Hin. destruct Hin as [Hin Hb].
    apply andb_true_iff in Hb. destruct Hb as [Ha _].
    split; [exact Ha|]. exists t. split; [exact Hin | reflexivity]. }
  split; [|split; [exact Hnow | exact Hinv]].
  eapply Forall2_compose with
    (R1 := fun e e1 => e1 = mark e) (b := qs);
    [| apply Forall2_map_r; reflexivity | exact Hre].
  intros x y z -> (Hk & Hs & Hsame). unfold touched, mark, affected in *.
  destruct (isPrefixOf prefix (key x)) eqn:E.
  - split; [rewrite Hk; reflexivity | rewrite Hs; reflexivity].
  - split; [exact Hk | apply Hsame; exact E].
Qed.

Lemma touched_compose (P Q : Key -> bool) (t : Z) (a b c : list Entry) :
  Forall2 (touched P t) a b -> Forall2 (touched Q t) b c ->
  Forall2 (touched (fun k => P k || Q k) t) a c.
Proof.
  apply Forall2_compose. unfold touched.
  intros x y z [Hk1 H1] [Hk2 H2]. split; [congruence|].
  rewrite Hk1 in H2.
  destruct (P (key x)), (Q (key x)); simpl; congruence.
Qed.

Lemma touched_ext (P Q : Key -> bool) (t : Z) (a b : list Entry) :
  (forall k, P k = Q k) -> Forall2 (touched P t) a b -> Forall2 (touched Q t) a b.
Proof.
  intros H. apply Forall2_weaken. unfold touched. intros x y.
  now rewrite H.
Qed.

Lemma invalidate_sequence (prefixes : list Key) (c : Client) :
  let c' := fold_left (fun c0 p => invalidateQueries p c0) prefixes c in
  Forall2 (touched (fun k => existsb (fun p => isPrefixOf p k) prefixes) (now c))
    (queries c) (queries c') /\
  now c' = now c /\
  invalidations c' = invalidations c ++ prefixes.
Proof.
  revert c. induction prefixes as [|p ps IH]; intros c; simpl.
  - split; [|split; [reflexivity | now rewrite app_nil_r]].
    apply Forall2_same. intros e _. split; reflexivity.
  - destruct (invalidateQueries_spec p c) as (H1 & Hnow & Hinv).
    destruct (IH (invalidateQueries p c)) as (H2 & Hnow' & Hinv').
    simpl in H2, Hnow', Hinv'. rewrite Hnow in H2.
    split; [|split].
    + exact (touched_compose _ _ _ _ _ _ H1 H2).
    + congruence.
    + rewrite Hinv', Hinv, <- app_assoc. reflexivity.
Qed.

Lemma payments_subsumed (id : Prim) (k : Key) :
  (isPrefixOf (paymentKeys.byPledge id) k = true ->
   isPrefixOf paymentKeys.all k = true) /\
  (isPrefixOf (paymentKeys.byContact id) k = true ->
   isPrefixOf paymentKeys.all k = true).
Proof.
  split; intros H.
  - apply isPrefixOf_shorter with [tag "list"; tag "pledge"; KPrim id]. exact H.
  - apply isPrefixOf_shorter with [tag "list"; tag "contact"; KPrim id]. exact H.
Qed.

Lemma pledges_subsumed (k : Key) :
  (isPrefixOf pledgeKeys.lists k = true -> isPrefixOf pledgeKeys.all k = true) /\
  (forall id, isPrefixOf (pledgeKeys.detail id) k = true ->
              isPrefixOf pledgeKeys.all k = true) /\
  (forall params, isPrefixOf (pledgeKeys.list params) k = true ->
                  isPrefixOf pledgeKeys.all k = true).
Proof.
  split; [|split].
  - intros H. apply isPrefixOf_shorter with [tag "list"]. exact H.
  - intros id H. apply isPrefixOf_shorter with [tag "detail"; KPrim id]. exact H.
  - intros ps H. apply isPrefixOf_shorter with [tag "list"; KObj ps]. exact H.
Qed.

(* ===================================================================== *)
(** ** Invalidation after a mutation *)
(* ===================================================================== *)

Lemma useMutation_success {V : Type} (mutationFn : V -> Async Value)
    (onSuccess : Value -> V -> Client -> Client)
    (onError : Error -> Client -> Client) (variables : V) (c : Client)
    (result : Value) :
  fst (useMutation mutationFn onSuccess onError variables c) = Resolved result ->
  exists n,
    mutationFn variables (net c) = (Resolved result, n) /\
    snd (useMutation mutationFn onSuccess onError variables c)
    = onSuccess result variables (withNet n c).
Proof.
  unfold useMutation.
  destruct (mutationFn variables (net c)) as [[r|e] n]; simpl;
    intros H; inversion H; subst. now exists n.
Qed.

Lemma useMutation_failure {V : Type} (mutationFn : V -> Async Value)
    (onSuccess : Value -> V -> Client -> Client)
    (onError : Error -> Client -> Client) (variables : V) (c : Client)
    (e : Error) (n : Net) :
  mutationFn variables (net c) = (Rejected e, n) ->
  useMutation mutationFn onSuccess onError variables c
  = (Rejected e, onError e (withNet n c)).
Proof. unfold useMutation. now intros ->. Qed.

(** C1, as the code has it.  After a successful create-payment mutation
    for pledge [p], the cached entries marked stale are exactly those whose
    key has the prefix [payments] or [pledges]; every other cached entry is
    left as it was.  The four invalidations issued are [payments],
    [payments, list, pledge, p], [pledges] and [pledges, detail, p], in this
    order, and every key under [payments, list, pledge, p],
    [payments, list, contact, c], [pledges, list] or [pledges, detail, p] is
    under one of the two roots. *)
Theorem createPayment_invalidation (variables : CreatePaymentData)
    (c : Client) (result : Value) :
  fst (useCreatePaymentMutation.mutate variables c) = Resolved result ->
  let c' := snd (useCreatePaymentMutation.mutate variables c) in
  let p := get "pledgeId" variables in
  Forall2
    (touched (fun k => isPrefixOf paymentKeys.all k || isPrefixOf pledgeKeys.all k)
       (now c))
    (queries c) (queries c') /\
  invalidations c'
  = invalidations c ++
    [paymentKeys.all; paymentKeys.byPledge p; pledgeKeys.all;
     pledgeKeys.detail p] /\
  (forall contactId k,
      claimedPaymentPrefixes p contactId k = true ->
      isPrefixOf paymentKeys.all k || isPrefixOf pledgeKeys.all k = true).
Proof.
  intros Hok c' p.
  destruct (useMutation_success _ _ _ _ _ _ Hok) as [n [_ Hsnd]].
  unfold c'. unfold useCreatePaymentMutation.mutate. rewrite Hsnd. clear Hsnd.
  pose proof (invalidate_sequence
                [paymentKeys.all; paymentKeys.byPledge p; pledgeKeys.all;
                 pledgeKeys.detail p] (withNet n c)) as (Ht & _ & Hinv).
  cbn [withNet invalidations queries now] in Ht, Hinv.
  split; [|split].
  - eapply touched_ext; [|exact Ht]. intros k. cbn [existsb].
    destruct (payments_subsumed p k) as [Hp _].
    destruct (pledges_subsumed k) as (_ & Hd & _).
    specialize (Hd p).
    destruct (isPrefixOf paymentKeys.all k), (isPrefixOf pledgeKeys.all k),
      (isPrefixOf (paymentKeys.byPledge p) k),
      (isPrefixOf (pledgeKeys.detail p) k); simpl; auto;
      try (specialize (Hp eq_refl); discriminate);
      try (specialize (Hd eq_refl); discriminate).
  - exact Hinv.
  - intros contactId k. unfold claimedPaymentPrefixes.
    destruct (payments_subsumed p k) as [Hp _].
    destruct (payments_subsumed contactId k) as [_ Hc].
    destruct (pledges_subsumed k) as (Hl & Hd & _).
    specialize (Hd p).
    rewrite !orb_true_iff. intros [[[H|H]|H]|H]; auto.
Qed.


(** A successful create-payment for pledge 7, on a client that caches the
    detail of pledge 8. *)
Lemma createPayment_invalidation_witness :
  fst (useCreatePaymentMutation.mutate samplePayment sampleClient)
  = Resolved (VObj [("message", VPrim (PStr "created"))]) /\
  invalidations (snd (useCreatePaymentMutation.mutate samplePayment sampleClient))
  = [paymentKeys.all; paymentKeys.byPledge (PNum 7); pledgeKeys.all;
     pledgeKeys.detail (PNum 7)].
Proof.
  assert (Hok : fst (useCreatePaymentMutation.mutate samplePayment sampleClient)
                = Resolved (VObj [("message", VPrim (PStr "created"))])).
  { vm_compute. reflexivity. }
  split; [exact Hok|].
  exact (proj1 (proj2 (createPayment_invalidation samplePayment sampleClient
                         _ Hok))).
Defined.

(** C1 fails as stated: a create-payment for pledge 7 marks stale the
    cached detail of pledge 8, whose key is under none of
    [payments, list, pledge, 7], [payments, list, contact, 3],
    [pledges, list] and [pledges, detail, 7]. *)
Lemma createPayment_invalidation_counterexample :
  ~ claimed_createPayment_invalidation samplePayment (PNum 3) sampleClient.
Proof.
  intros Hclaim.
  specialize (Hclaim (VObj [("message", VPrim (PStr "created"))])).
  assert (Hok : fst (useCreatePaymentMutation.mutate samplePayment sampleClient)
                = Resolved (VObj [("message", VPrim (PStr "created"))])).
  { vm_compute. reflexivity. }
  specialize (Hclaim Hok).
  assert (Houtside :
            claimedPaymentPrefixes (get "pledgeId" samplePayment) (PNum 3)
              (key (freshSuccess (pledgeKeys.detail (PNum 8)) 0)) = false).
  { vm_compute. reflexivity. }
  change (queries sampleClient)
    with [freshSuccess (pledgeKeys.detail (PNum 8)) 0;
          freshSuccess (paymentKeys.byPledge (PNum 7)) 1] in Hclaim.
  inversion Hclaim as [|e e' rest rest' Hmarked Hrest].
  destruct Hmarked as [_ Hsame].
  rewrite Houtside in Hsame. simpl in Hsame. discriminate Hsame.
Qed.



(* ===================================================================== *)
(** ** Failed mutations *)
(* ===================================================================== *)

Lemma createPledgeAndPay_effects (data : CreatePledgeAndPayData) (n : Net) :
  sent (snd (useCreatePledgeAndPayMutation.mutationFn data n))
  = sent n ++ [createPledge_request (omit "shouldRedirectToPay" data)] /\
  console (snd (useCreatePledgeAndPayMutation.mutationFn data n)) = console n.
Proof.
  unfold useCreatePledgeAndPayMutation.mutationFn, bind, ret.
  pose proof (createPledge_effects (omit "shouldRedirectToPay" data) n) as H.
  destruct (createPledge (omit "shouldRedirectToPay" data) n) as [[r|e] n'];
    exact H.
Qed.

Lemma failure_only_logs (mutationFn : Obj Prim -> Async Value)
    (onSuccess : Value -> Obj Prim -> Client -> Client)
    (label : string) (req : Request) (variables : Obj Prim) (c : Client)
    (e : Error) (n : Net) :
  sent (snd (mutationFn variables (net c))) = sent (net c) ++ [req] /\
  console (snd (mutationFn variables (net c))) = console (net c) ->
  mutationFn variables (net c) = (Rejected e, n) ->
  exists c',
    useMutation mutationFn onSuccess
      (fun error c0 => withNet (console_error label error (net c0)) c0)
      variables c
    = (Rejected e, c') /\
    onlyLogged label e req c c'.
Proof.
  intros [Hsent Hconsole] Hrej. rewrite Hrej in Hsent, Hconsole.
  simpl in Hsent, Hconsole.
  eexists. split; [apply useMutation_failure; exact Hrej|].
  unfold onlyLogged. simpl. rewrite Hsent, Hconsole.
  repeat split; reflexivity.
Qed.

(** C8.  When the mutation function of create-pledge, of create-payment or
    of create-pledge-and-pay rejects, the trigger hands the same error back to
    its caller, and nothing is invalidated: the cached entries, the list of
    invalidations and the list of fetches started are what they were; the
    only request sent is the mutation's own and the only other effect is the
    line on the console. *)
Theorem failed_mutation_no_invalidation (variables : Obj Prim) (c : Client)
    (e : Error) (n : Net) :
  (createPledge variables (net c) = (Rejected e, n) ->
   exists c',
     useCreatePledgeMutation.mutate variables c = (Rejected e, c') /\
     onlyLogged "Error creating pledge:" e (createPledge_request variables)
       c c') /\
  (createPayment variables (net c) = (Rejected e, n) ->
   exists c',
     useCreatePaymentMutation.mutate variables c = (Rejected e, c') /\
     onlyLogged "Error creating payment:" e (createPayment_request variables)
       c c') /\
  (useCreatePledgeAndPayMutation.mutationFn variables (net c) = (Rejected e, n) ->
   exists c',
     useCreatePledgeAndPayMutation.mutate variables c = (Rejected e, c') /\
     onlyLogged "Error creating pledge:" e
       (createPledge_request (omit "shouldRedirectToPay" variables)) c c').
Proof.
  split; [|split]; intros Hrej.
  - apply (failure_only_logs createPledge useCreatePledgeMutation.onSuccess
             _ _ variables c e n (createPledge_effects variables (net c)) Hrej).
  - apply (failure_only_logs createPayment useCreatePaymentMutation.onSuccess
             _ _ variables c e n (createPayment_effects variables (net c)) Hrej).
  - apply (failure_only_logs useCreatePledgeAndPayMutation.mutationFn
             useCreatePledgeAndPayMutation.onSuccess
             _ _ variables c e n
             (createPledgeAndPay_effects variables (net c)) Hrej).
Qed.

(** A create-pledge that the server refuses with "Bad Request". *)
Lemma failed_mutation_no_invalidation_witness :
  exists c',
    useCreatePledgeMutation.mutate (samplePledge 5) sampleClientFailing
    = (Rejected (newError "Failed to create pledge: Bad Request"), c') /\
    onlyLogged "Error creating pledge:"
      (newError "Failed to create pledge: Bad Request")
      (createPledge_request (samplePledge 5)) sampleClientFailing c'.
Proof.
  apply (proj1 (failed_mutation_no_invalidation (samplePledge 5)
                  sampleClientFailing
                  (newError "Failed to create pledge: Bad Request")
                  {| sent := [createPledge_request (samplePledge 5)];
                     replies := []; console := [] |})).
  vm_compute. reflexivity.
Defined.

(* ===================================================================== *)
(** ** The Fetch Coordinator *)
(* ===================================================================== *)

Lemma findEntry_updateEntry (k k' : Key) (f : Entry -> Entry)
    (qs : list Entry) :
  (forall e, key (f e) = key e) ->
  findEntry k' (updateEntry k f qs)
  = if Key_eqb k' k then option_map f (findEntry k' qs) else findEntry k' qs.
Proof.
  intros Hkey. unfold findEntry, updateEntry.
  induction qs as [|e qs IH]; simpl.
  - now destruct (Key_eqb k' k).
  - destruct (Key_eqb (key e) k) eqn:Ek; [rewrite Hkey|];
      destruct (Key_eqb (key e) k') eqn:Ek'; try exact IH.
    + assert (Key_eqb k' k = true) as ->; [|reflexivity].
      apply Key_eqb_trans with (key e); [now apply Key_eqb_sym | exact Ek].
    + assert (Key_eqb k' k = false) as ->; [|reflexivity].
      destruct (Key_eqb k' k) eqn:E; [|reflexivity].
      rewrite <- Ek. symmetry. now apply Key_eqb_trans with k'.
Qed.

Lemma findEntry_updateEntry_same (k : Key) (f : Entry -> Entry)
    (qs : list Entry) :
  (forall e, key (f e) = key e) ->
  findEntry k (updateEntry k f qs) = option_map f (findEntry k qs).
Proof.
  intros Hkey. rewrite findEntry_updateEntry by exact Hkey.
  now rewrite Key_eqb_refl.
Qed.

Lemma findEntry_app_last (k : Key) (qs : list Entry) (x : Entry) :
  findEntry k (qs ++ [x])
  = match findEntry k qs with
    | Some e => Some e
    | None => if Key_eqb (key x) k then Some x else None
    end.
Proof.
  unfold findEntry. induction qs as [|e qs IH]; simpl; [reflexivity|].
  destruct (Key_eqb (key e) k); [reflexivity | exact IH].
Qed.

Lemma settle_pending (k : Key) (c : Client) (e : Entry)
    (outcome : Outcome Value) :
  findEntry k (queries c) = Some e ->
  status e = StPending ->
  promise e = Some outcome ->
  settle k c
  = {| net := net c; now := now c;
       queries := updateEntry k (complete (now c) outcome) (queries c);
       delivered := delivered c ++ map (fun w => (w, key e, outcome)) (attached e);
       fetchLog := fetchLog c; settleLog := k :: settleLog c;
       invalidations := invalidations c |}.
Proof. intros Hf Hs Hp. unfold settle. now rewrite Hf, Hs, Hp. Qed.

Lemma complete_key (t : Z) (outcome : Outcome Value) (e : Entry) :
  key (complete t outcome e) = key e.
Proof. now destruct outcome. Qed.

Lemma fetchPledges_failure (encode : string -> string)
    (params : PledgeQueryParams) (n : Net) (response : Response)
    (rest : list (Outcome Response)) :
  replies n = Resolved response :: rest ->
  ok response = false ->
  fst (fetchPledges encode params n)
  = Rejected (newError ("Failed to fetch pledges: " ++ statusText response)%string).
Proof.
  intros Hr Hok. unfold fetchPledges, bind, fetch. rewrite Hr. simpl.
  now rewrite Hok.
Qed.




Lemma pendingIn_congr (k k' : Key) (qs : list Entry) :
  Key_eqb k k' = true -> pendingIn k qs = pendingIn k' qs.
Proof. intros H. unfold pendingIn. now rewrite (findEntry_congr k k' qs H). Qed.




Lemma startFetch_entry (opts : UseQueryOptions) (who : option Caller)
    (c : Client) :
  findEntry (queryKey opts) (queries (startFetch opts who c))
  = Some (toPending opts (fst (queryFn opts (net c))) who (entryOr opts c)).
Proof.
  unfold startFetch, entryOr.
  destruct (queryFn opts (net c)) as [outcome n]. simpl.
  destruct (findEntry (queryKey opts) (queries c)) as [e|] eqn:E.
  - rewrite findEntry_updateEntry_same by reflexivity. now rewrite E.
  - rewrite findEntry_app_last, E.
    change (key (toPending opts outcome who (freshEntry opts)))
      with (queryKey opts).
    now rewrite Key_eqb_refl.
Qed.


Lemma startFetch_logs (opts : UseQueryOptions) (who : option Caller)
    (c : Client) :
  fetchLog (startFetch opts who c) = queryKey opts :: fetchLog c /\
  net (startFetch opts who c) = snd (queryFn opts (net c)).
Proof.
  unfold startFetch. destruct (queryFn opts (net c)) as [outcome n].
  split; reflexivity.
Qed.













Lemma useQuery_started (opts : UseQueryOptions) (who : Caller) (c : Client) :
  fst (useQuery opts who c) = Started ->
  snd (useQuery opts who c)
  = subscribe (queryKey opts) (startFetch opts (Some who) c).
Proof.
  unfold useQuery, request.
  destruct (findEntry (queryKey opts) (queries c)) as [e|];
    [destruct (status e); [| destruct (now c <? staleAt e) |] |];
    simpl; intros H; try discriminate H; reflexivity.
Qed.


Lemma request_success (opts : UseQueryOptions) (who : option Caller)
    (c : Client) (e : Entry) :
  findEntry (queryKey opts) (queries c) = Some e ->
  status e = StSuccess ->
  request opts who c
  = if now c <? staleAt e then (Cached (data e), c)
    else (Started, startFetch opts who c).
Proof. intros Hf Hs. unfold request. now rewrite Hf, Hs. Qed.

Lemma subscribe_entry (k k' : Key) (c : Client) :
  Key_eqb k' k = true ->
  findEntry k' (queries (subscribe k c))
  = option_map (setSubscribers S) (findEntry k' (queries c)).
Proof.
  intros H. unfold subscribe. simpl.
  rewrite findEntry_updateEntry by reflexivity. now rewrite H.
Qed.

(** The state after a first [useQuery] that started a fetch: the entry of
    the key is pending, holds the promise of that fetch and has the caller
    attached. *)
Lemma useQuery_started_entry (opts : UseQueryOptions) (who : Caller)
    (c : Client) :
  fst (useQuery opts who c) = Started ->
  let c1 := snd (useQuery opts who c) in
  findEntry (queryKey opts) (queries c1)
  = Some (setSubscribers S
            (toPending opts (fst (queryFn opts (net c))) (Some who)
               (entryOr opts c))) /\
  fetchLog c1 = queryKey opts :: fetchLog c /\
  net c1 = snd (queryFn opts (net c)) /\
  now c1 = now c /\
  delivered c1 = delivered c.
Proof.
  intros Hstarted c1. unfold c1. rewrite (useQuery_started _ _ _ Hstarted).
  split.
  - rewrite subscribe_entry by apply Key_eqb_refl.
    now rewrite startFetch_entry.
  - destruct (startFetch_logs opts (Some who) c) as [Hlog Hnet].
    destruct (startFetch_frame opts (Some who) c) as (Hnow & _ & Hdel & _).
    unfold subscribe. simpl. auto.
Qed.



(** C5.  [usePledgesQuery] asks for a stale time of five minutes.  Once a
    fetch it started has completed with data, a request for the same key made
    less than five minutes later is answered from the cache: the fetcher is
    not invoked and nothing is sent.  A request made five minutes later or
    more invokes the fetcher again: one more fetch is started and the request
    of [fetchPledges] is sent once more. *)
Theorem pledges_query_staleness (encode : string -> string)
    (params : PledgeQueryParams) (who who' : Caller) (c : Client)
    (d : Value) (elapsed : Z) :
  let k := pledgeKeys.list params in
  fst (usePledgesQuery encode params who c) = Started ->
  fst (fetchPledges encode params (net c)) = Resolved d ->
  let fetched := settle k (snd (usePledgesQuery encode params who c)) in
  let later := advance elapsed fetched in
  read k fetched = Some (StSuccess, Some d, None) /\
  (elapsed < 1000 * 60 * 5 ->
   usePledgesQuery encode params who' later
   = (Cached (Some d), subscribe k later) /\
   fetchLog (subscribe k later) = fetchLog later /\
   net (subscribe k later) = net later) /\
  (1000 * 60 * 5 <= elapsed ->
   fst (usePledgesQuery encode params who' later) = Started /\
   fetchLog (snd (usePledgesQuery encode params who' later))
   = k :: fetchLog later /\
   sent (net (snd (usePledgesQuery encode params who' later)))
   = sent (net later) ++ [fetchPledges_request encode params]).
Proof.
  intros k Hstarted Hdata fetched later.
  set (opts := {| queryKey := pledgeKeys.list params;
                  queryFn := fetchPledges encode params;
                  staleTime := 1000 * 60 * 5;
                  gcTime := 1000 * 60 * 30 |}).
  change (usePledgesQuery encode params) with (useQuery opts) in *.
  change k with (queryKey opts) in *.
  destruct (useQuery_started_entry opts who c Hstarted)
    as (Hentry & _ & _ & Hnow & _).
  change (queryFn opts) with (fetchPledges encode params) in Hentry.
  rewrite Hdata in Hentry.
  set (e1 := setSubscribers S
               (toPending opts (Resolved d) (Some who) (entryOr opts c)))
    in Hentry.
  assert (Hfetched :
            findEntry (queryKey opts) (queries fetched)
            = Some (complete (now c) (Resolved d) e1)).
  { unfold fetched.
    rewrite (settle_pending _ _ _ (Resolved d) Hentry eq_refl eq_refl).
    cbn [queries].
    rewrite findEntry_updateEntry_same by (intros; apply complete_key).
    now rewrite Hentry, Hnow. }
  assert (Hlater :
            findEntry (queryKey opts) (queries later)
            = Some (complete (now c) (Resolved d) e1)) by exact Hfetched.
  assert (Hclock : now later = now c + elapsed).
  { unfold later, advance, fetched. cbn [now].
    rewrite (settle_pending _ _ _ (Resolved d) Hentry eq_refl eq_refl).
    cbn [now]. now rewrite Hnow. }
  pose proof (request_success opts (Some who') later _ Hlater eq_refl) as Hreq.
  cbn [complete staleAt data options e1 setSubscribers toPending staleTime opts]
    in Hreq.
  rewrite Hclock in Hreq.
  split; [|split].
  - unfold read. now rewrite Hfetched.
  - intros Hfresh. unfold useQuery. rewrite Hreq.
    destruct (Z.ltb_spec (now c + elapsed) (now c + 1000 * 60 * 5));
      [repeat split; reflexivity | lia].
  - intros Hold. unfold useQuery. rewrite Hreq.
    destruct (Z.ltb_spec (now c + elapsed) (now c + 1000 * 60 * 5));
      [lia|].
    cbn [fst snd]. split; [reflexivity|].
    destruct (startFetch_logs opts (Some who') later) as [Hlog Hnet].
    unfold subscribe. cbn [withQueries fetchLog net].
    split; [exact Hlog|].
    rewrite Hnet. apply fetchPledges_effects.
Qed.

(** A pledge list is fetched at time [400000]; it is asked for again four
    minutes later, and six minutes later. *)
Lemma pledges_query_staleness_witness :
  let c := staleClient [okResponse sampleData; okResponse sampleData] in
  let k := pledgeKeys.list sampleParams in
  let fetched := settle k (snd (usePledgesQuery (fun s => s) sampleParams 1%nat c)) in
  fst (usePledgesQuery (fun s => s) sampleParams 2%nat (advance 240000 fetched))
  = Cached (Some sampleData) /\
  fst (usePledgesQuery (fun s => s) sampleParams 2%nat (advance 360000 fetched))
  = Started.
Proof.
  intros c k fetched. split.
  - assert (Hfresh : 240000 < 1000 * 60 * 5) by lia.
    refine (f_equal fst
              (proj1
                 (proj1 (proj2 (pledges_query_staleness (fun s => s)
                                  sampleParams 1%nat 2%nat c sampleData
                                  240000 _ _))
                    Hfresh))); vm_compute; reflexivity.
  - assert (Hold : 1000 * 60 * 5 <= 360000) by lia.
    refine (proj1 (proj2 (proj2 (pledges_query_staleness (fun s => s)
                                   sampleParams 1%nat 2%nat c sampleData
                                   360000 _ _))
                     Hold)); vm_compute; reflexivity.
Defined.


(* ===================================================================== *)
(** ** Worked examples *)
(* ===================================================================== *)

(** Empty, [undefined] and [null] fields are dropped from the query string;
    zero is kept. *)
Example fetchPledges_url_example :
  fetchPledges_url (fun s => s)
    [("contactId", PNum 3); ("search", PStr ""); ("categoryId", PNum 0);
     ("status", PUndefined); ("startDate", PNull); ("page", PNum 1)]
  = "/api/pledges?contactId=3&categoryId=0&page=1"%string.
Proof. vm_compute. reflexivity. Qed.

(** The redirect flag stays out of the request body and comes back on the
    result. *)
Example createPledgeAndPay_example :
  let data := samplePledge 5 ++ [("shouldRedirectToPay", PBool true)] in
  let run := useCreatePledgeAndPayMutation.mutationFn data (net sampleClient) in
  fst run
  = Resolved (VObj [("message", VPrim (PStr "created"));
                    ("shouldRedirectToPay", VPrim (PBool true))]) /\
  map body (sent (snd run)) = [Some (samplePledge 5)].
Proof. vm_compute. split; reflexivity. Qed.

(** A create-payment marks the subscribed payments of pledge 7 stale and
    fetches them again at once; the unsubscribed detail of pledge 8 is marked
    stale and left for later. *)
Example createPayment_example :
  let after := snd (useCreatePaymentMutation.mutate samplePayment sampleClient) in
  map (fun e => (status e, staleAt e)) (queries after)
  = [(StSuccess, 4999); (StPending, 4999)] /\
  fetchLog after = [paymentKeys.byPledge (PNum 7)].
Proof. vm_compute. split; reflexivity. Qed.

(* ===================================================================== *)
(** ** More on the API functions *)
(* ===================================================================== *)

(** Every way a reply can turn out, for the proofs by cases below. *)
Ltac reply_cases n :=
  destruct (replies n) as [|[?response|?e] ?rest]; simpl;
  [ | destruct (ok response) eqn:?Hok; simpl;
      destruct (json response) as [[[| | | |]| |]|] eqn:?Hjson; simpl;
      repeat match goal with
        | |- context [match lookup ?k ?o with _ => _ end] =>
            destruct (lookup k o); simpl
        end
    | ].

Ltac settle_resolution :=
  split;
  [ intros H;
    first [ discriminate H
          | inversion H; subst; do 2 eexists; repeat split; assumption ]
  | intros (r0 & rest0 & Hr & Hok0 & Hjson0);
    first [ discriminate Hr | inversion Hr; subst; congruence ] ].

(** X1.  [createPayment], [createPledge] and [fetchPledges] resolve in one
    case only: the reply is a response, it is ok and its body is JSON; they
    then resolve to that JSON value.  In every other case (a network failure,
    a response that is not ok, a body that is not JSON) they reject. *)
Theorem api_resolves_only_on_ok (encode : string -> string)
    (data : Obj Prim) (n : Net) (v : Value) :
  (fst (createPayment data n) = Resolved v <->
   exists response rest,
     replies n = Resolved response :: rest /\
     ok response = true /\ json response = Some v) /\
  (fst (createPledge data n) = Resolved v <->
   exists response rest,
     replies n = Resolved response :: rest /\
     ok response = true /\ json response = Some v) /\
  (fst (fetchPledges encode data n) = Resolved v <->
   exists response rest,
     replies n = Resolved response :: rest /\
     ok response = true /\ json response = Some v).
Proof.
  split; [|split].
  - unfold createPayment, bind, fetch, response_json, member, throw, ret.
    reply_cases n; settle_resolution.
  - unfold createPledge, bind, fetch, response_json, member, throw, ret.
    reply_cases n; settle_resolution.
  - unfold fetchPledges, bind, fetch, response_json, throw, ret.
    reply_cases n; settle_resolution.
Qed.



(** X3.  When the server refuses a create-payment or a create-pledge and
    the body of its response is not JSON, the caller gets the error of the
    failed parse, a [SyntaxError], and with a body that is the JSON [null] a
    [TypeError]: the status text of the response is lost.  [fetchPledges]
    does not read the body of a refused request: its error is the fixed text
    followed by the status text, whatever the body. *)
Theorem refused_body_handling (encode : string -> string) (data : Obj Prim)
    (n : Net) (response : Response) (rest : list (Outcome Response)) :
  replies n = Resolved response :: rest ->
  ok response = false ->
  (json response = None ->
   exists e, name e = "SyntaxError"%string /\
             fst (createPayment data n) = Rejected e /\
             fst (createPledge data n) = Rejected e) /\
  (json response = Some (VPrim PNull) ->
   exists e, name e = "TypeError"%string /\
             fst (createPayment data n) = Rejected e /\
             fst (createPledge data n) = Rejected e) /\
  fst (fetchPledges encode data n)
  = Rejected (newError ("Failed to fetch pledges: " ++ statusText response)%string).
Proof.
  intros Hr Hok. split; [|split].
  - intros Hjson. eexists. split; [|split].
    2:{ unfold createPayment, bind, fetch, response_json, throw.
        rewrite Hr. simpl. rewrite Hok. simpl. rewrite Hjson. reflexivity. }
    + reflexivity.
    + unfold createPledge, bind, fetch, response_json, throw.
      rewrite Hr. simpl. rewrite Hok. simpl. rewrite Hjson. reflexivity.
  - intros Hjson. eexists. split; [|split].
    2:{ unfold createPayment, bind, fetch, response_json, member, throw, ret.
        rewrite Hr. simpl. rewrite Hok. simpl. rewrite Hjson. reflexivity. }
    + reflexivity.
    + unfold createPledge, bind, fetch, response_json, member, throw, ret.
      rewrite Hr. simpl. rewrite Hok. simpl. rewrite Hjson. reflexivity.
  - now apply fetchPledges_failure with rest.
Qed.

(** A gateway answers a create-payment with an HTML error page. *)
Lemma refused_body_handling_witness :
  exists e,
    name e = "SyntaxError"%string /\
    fst (createPayment samplePayment (replyingNet [Resolved badGateway]))
    = Rejected e.
Proof.
  destruct (proj1 (refused_body_handling (fun s => s) samplePayment
                     (replyingNet [Resolved badGateway]) badGateway []
                     eq_refl eq_refl) eq_refl) as [e [Hname [Hpay _]]].
  exists e. split; assumption.
Defined.

Lemma lookup_In {A : Type} (k : string) (v : A) (o : Obj A) :
  lookup k o = Some v -> In (k, v) o.
Proof.
  induction o as [|[k' v'] o IH]; simpl; [discriminate|].
  destruct (String.eqb_spec k k') as [->|Hne].
  - intros [= ->]. now left.
  - intros H. right. now apply IH.
Qed.

Lemma In_lookup {A : Type} (k : string) (v : A) (o : Obj A) :
  NoDup (keys o) -> In (k, v) o -> lookup k o = Some v.
Proof.
  induction o as [|[k' v'] o IH]; simpl; intros Hnd Hin; [contradiction|].
  inversion Hnd as [|? ? Hnotin Hnd']; subst.
  destruct Hin as [[= -> ->]|Hin].
  - now rewrite String.eqb_refl.
  - destruct (String.eqb_spec k k') as [->|Hne]; [|now apply IH].
    exfalso. apply Hnotin. unfold keys. apply in_map_iff.
    now exists (k', v).
Qed.

Lemma present_fields_shared (p q : Obj Prim) (k : string) (v : Prim) :
  NoDup (keys p) -> bag_eqv p q ->
  In (k, v) p -> isPresent v = true -> In (k, v) q.
Proof.
  intros Hnd Heqv Hin Hpresent.
  pose proof (In_lookup k v p Hnd Hin) as Hp.
  specialize (Heqv k). unfold get in Heqv. rewrite Hp in Heqv.
  destruct (lookup k q) as [v'|] eqn:Hq.
  - subst v'. now apply lookup_In.
  - subst v. discriminate Hpresent.
Qed.

Lemma searchParams_NoDup (p : Obj Prim) :
  NoDup (keys p) -> NoDup (fetchPledges_searchParams p).
Proof.
  intros Hnd. apply (NoDup_map_inv fst).
  induction p as [|[k v] p IH]; simpl; [constructor|].
  inversion Hnd as [|? ? Hnotin Hnd']; subst.
  destruct (isPresent v); simpl; [|now apply IH].
  constructor; [|now apply IH].
  intros Hin. apply Hnotin. unfold keys.
  rewrite fetchPledges_searchParams_filter, map_map in Hin. simpl in Hin.
  apply in_map_iff in Hin. destruct Hin as [[k' v'] [Hk Hin]].
  simpl in Hk. subst k'. apply filter_In in Hin.
  apply in_map_iff. exists (k, v'). split; [reflexivity | apply Hin].
Qed.

(** X4.  Two parameter bags with the same fields and values, their fields
    inserted in different orders, give [fetchPledges] the same query
    parameters, in a different order: nothing is lost or added.  (Objects have
    each field name once.) *)
Theorem fetchPledges_params_up_to_order (p q : PledgeQueryParams) :
  NoDup (keys p) -> NoDup (keys q) -> bag_eqv p q ->
  Permutation (fetchPledges_searchParams p) (fetchPledges_searchParams q).
Proof.
  intros Hp Hq Heqv.
  apply NoDup_Permutation; try now apply searchParams_NoDup.
  assert (Hsub : forall a b : Obj Prim,
             NoDup (keys a) -> bag_eqv a b ->
             forall x, In x (fetchPledges_searchParams a) ->
                       In x (fetchPledges_searchParams b)).
  { intros a b Ha Hab x. rewrite !fetchPledges_searchParams_filter.
    rewrite !in_map_iff. intros [[k v] [Hx Hin]].
    apply filter_In in Hin. destruct Hin as [Hin Hpresent].
    exists (k, v). split; [exact Hx|]. apply filter_In.
    split; [|exact Hpresent].
    now apply (present_fields_shared a b k v Ha Hab Hin). }
  intros x. split.
  - now apply Hsub.
  - apply Hsub; [exact Hq|]. intros k. symmetry. apply Heqv.
Qed.

(** The contact and page filters, set in either order. *)
Lemma fetchPledges_params_up_to_order_witness :
  Permutation (fetchPledges_searchParams sampleParams)
    (fetchPledges_searchParams sampleParamsSwapped).
Proof.
  apply (fetchPledges_params_up_to_order sampleParams sampleParamsSwapped).
  - repeat constructor; simpl; intuition discriminate.
  - repeat constructor; simpl; intuition discriminate.
  - apply bag_eqb_eqv. vm_compute. reflexivity.
Defined.

(* ===================================================================== *)
(** ** The payment plans table *)
(* ===================================================================== *)

Lemma Set_has_In (x : Z) (s : NumberSet) : Set_has x s = true <-> In x s.
Proof.
  unfold Set_has. rewrite existsb_exists. split.
  - intros [y [Hin Heq]]. apply Z.eqb_eq in Heq. now subst.
  - intros Hin. exists x. split; [exact Hin | apply Z.eqb_refl].
Qed.

Lemma Set_has_delete (x y : Z) (s : NumberSet) :
  Set_has y (Set_delete x s) = negb (y =? x) && Set_has y s.
Proof.
  unfold Set_has, Set_delete. induction s as [|z s IH]; simpl.
  - now rewrite andb_false_r.
  - destruct (Z.eqb_spec x z) as [->|Hxz]; simpl.
    + rewrite IH. destruct (Z.eqb_spec y z); simpl; reflexivity.
    + rewrite IH. destruct (Z.eqb_spec y z) as [->|Hyz]; simpl.
      * destruct (Z.eqb_spec z x); [congruence | reflexivity].
      * reflexivity.
Qed.

Lemma Set_has_append (x y : Z) (s : NumberSet) :
  Set_has y (s ++ [x]) = Set_has y s || (y =? x).
Proof.
  unfold Set_has. rewrite existsb_app. simpl. now rewrite orb_false_r.
Qed.

Lemma Set_delete_length (x : Z) (s : NumberSet) :
  NoDup s -> In x s ->
  S (List.length (Set_delete x s)) = List.length s.
Proof.
  unfold Set_delete. induction s as [|z s IH]; intros Hnd Hin;
    [contradiction|].
  inversion Hnd as [|? ? Hnotin Hnd']; subst. simpl.
  destruct (Z.eqb_spec x z) as [->|Hxz]; simpl.
  - f_equal. clear IH Hin Hnd. induction s as [|w s IH]; [reflexivity|].
    simpl. destruct (Z.eqb_spec z w) as [->|Hzw]; simpl.
    + exfalso. apply Hnotin. now left.
    + f_equal. apply IH.
      * intros Hin. apply Hnotin. now right.
      * now inversion Hnd'.
  - f_equal. apply IH; [exact Hnd'|]. destruct Hin; [congruence|assumption].
Qed.

(** X5.  Toggling a row of the payment plans table flips whether that
    row is expanded and leaves every other row as it was, so toggling twice
    brings every row back; the set of expanded rows keeps each id once and
    grows or shrinks by exactly one. *)
Theorem toggleRowExpansion_flips_one (planId : Z) (expandedRows : NumberSet) :
  NoDup expandedRows ->
  let toggled := toggleRowExpansion planId expandedRows in
  Set_has planId toggled = negb (Set_has planId expandedRows) /\
  (forall other, other <> planId ->
                 Set_has other toggled = Set_has other expandedRows) /\
  (forall any, Set_has any (toggleRowExpansion planId toggled)
               = Set_has any expandedRows) /\
  NoDup toggled /\
  List.length toggled
  = (if Set_has planId expandedRows
     then Nat.pred (List.length expandedRows)
     else S (List.length expandedRows)).
Proof.
  intros Hnd toggled.
  assert (Hflip : forall s y,
             Set_has y (toggleRowExpansion planId s)
             = if y =? planId then negb (Set_has planId s) else Set_has y s).
  { intros s y. unfold toggleRowExpansion, Set_add.
    destruct (Set_has planId s) eqn:Hhas.
    - rewrite Set_has_delete.
      destruct (Z.eqb_spec y planId); reflexivity.
    - rewrite Set_has_append.
      destruct (Z.eqb_spec y planId) as [->|Hne]; simpl.
      + apply orb_true_r.
      + apply orb_false_r. }
  split; [|split; [|split; [|split]]].
  - unfold toggled. rewrite Hflip. now rewrite Z.eqb_refl.
  - intros other Hne. unfold toggled. rewrite Hflip.
    destruct (Z.eqb_spec other planId); [contradiction | reflexivity].
  - intros any. unfold toggled. rewrite !Hflip, Z.eqb_refl.
    destruct (Z.eqb_spec any planId) as [->|Hne];
      [apply negb_involutive | reflexivity].
  - unfold toggled, toggleRowExpansion, Set_add, Set_delete.
    destruct (Set_has planId expandedRows) eqn:Hhas.
    + now apply NoDup_filter.
    + apply NoDup_app; [exact Hnd | repeat constructor; intros [] |].
      intros x Hin [<-|[]].
      apply Set_has_In in Hin. congruence.
  - unfold toggled, toggleRowExpansion, Set_add.
    destruct (Set_has planId expandedRows) eqn:Hhas.
    + apply Set_has_In in Hhas.
      now rewrite <- (Set_delete_length planId expandedRows Hnd Hhas).
    + rewrite length_app. simpl. apply Nat.add_1_r.
Qed.

(** Rows 1, 3 and 5 are expanded; row 3 is collapsed, row 4 is expanded. *)
Lemma toggleRowExpansion_flips_one_witness :
  toggleRowExpansion 3 [1; 3; 5] = [1; 5] /\
  toggleRowExpansion 4 [1; 3; 5] = [1; 3; 5; 4] /\
  Set_has 3 (toggleRowExpansion 3 [1; 3; 5]) = false.
Proof.
  split; [reflexivity|]. split; [reflexivity|].
  refine (proj1 (toggleRowExpansion_flips_one 3 [1; 3; 5] _)).
  repeat constructor; simpl; intuition discriminate.
Defined.

(** X6.  The footer of the payment plans table counts the rows of the
    page at hand.  With at most [limit] rows on a page, the range it shows
    ends at the number of rows; it is a proper range, starting at 1, on the
    first page, and on every later page it starts after it ends ("Showing 11
    to 10").  The Next button is enabled exactly when the page is full, the
    Previous button is disabled exactly on the first page. *)
Theorem pagination_footer (currentPage currentLimit length : Z) :
  1 <= currentPage -> 1 <= currentLimit -> 0 < length <= currentLimit ->
  showingTo currentPage currentLimit length = length /\
  (currentPage = 1 ->
   showingFrom currentPage currentLimit = 1 /\
   showingFrom currentPage currentLimit
   <= showingTo currentPage currentLimit length) /\
  (1 < currentPage ->
   showingTo currentPage currentLimit length
   < showingFrom currentPage currentLimit) /\
  (nextDisabled length currentLimit = false <-> length = currentLimit) /\
  (previousDisabled currentPage = true <-> currentPage = 1).
Proof.
  intros Hpage Hlimit Hrows.
  unfold showingTo, showingFrom, nextDisabled, previousDisabled.
  assert (Hto : Z.min (currentPage * currentLimit) length = length).
  { apply Z.min_r. nia. }
  rewrite Hto. repeat split.
  - subst. lia.
  - subst. lia.
  - intros Hlater. nia.
  - intros H. apply Z.ltb_ge in H. lia.
  - intros ->. apply Z.ltb_irrefl.
  - intros H. apply Z.leb_le in H. lia.
  - intros ->. reflexivity.
Qed.

(** The second page of ten rows, ten to a page. *)
Lemma pagination_footer_witness :
  showingFrom 2 10 = 11 /\ showingTo 2 10 10 = 10.
Proof.
  split; [reflexivity|].
  assert (Hpage : 1 <= 2) by lia.
  assert (Hlimit : 1 <= 10) by lia.
  assert (Hrows : 0 < 10 <= 10) by lia.
  exact (proj1 (pagination_footer 2 10 10 Hpage Hlimit Hrows)).
Defined.
